(** * UC Merced dataset adapter: [tensorflow_datasets/image/uc_merced.py]

    A shallow embedding of the dataset builder [UcMerced] and of the
    collaborators its methods call (path functions of [os.path], the
    [tf.io.gfile] file system, the PIL image library), followed by the
    properties of the record stream it generates. *)

From Stdlib Require Import String Ascii List Bool Arith Lia ZArith.
Import ListNotations.
Open Scope string_scope.
Open Scope list_scope.

Set Implicit Arguments.

(** ** Module-level constants of [uc_merced.py] *)

Definition _LABELS : list string :=
  [ "agricultural";
    "airplane";
    "baseballdiamond";
    "beach";
    "buildings";
    "chaparral";
    "denseresidential";
    "forest";
    "freeway";
    "golfcourse";
    "harbor";
    "intersection";
    "mediumresidential";
    "mobilehomepark";
    "overpass";
    "parkinglot";
    "river";
    "runway";
    "sparseresidential";
    "storagetanks";
    "tenniscourt" ].

Definition _ZIP_URL : string :=
  "http://weegee.vision.ucmerced.edu/datasets/UCMerced_LandUse.zip".
Definition _ZIP_SUBDIR : string := "UCMerced_LandUse/Images".

(** ** Exceptions

    The source names no exception class of its own: every failure is whatever
    a collaborator raises.  [NotFoundError] and [FailedPreconditionError] are
    the [tf.errors] classes of the file system, [ImageDecodeError] stands for
    what the image library raises on data it cannot decode, [UnknownLabelError]
    for the label catalog's rejection of a name, [FetchError] for a failed
    download. *)

Inductive exn : Type :=
| NotFoundError
| FailedPreconditionError
| ImageDecodeError
| UnknownLabelError
| FetchError.

Definition result (A : Type) : Type := (exn + A)%type.

(** ** [os.path] (posixpath) *)

Module os_path.

Definition sep : ascii := "/"%char.

Definition startswith_sep (s : string) : bool :=
  match s with
  | String c _ => Ascii.eqb c sep
  | EmptyString => false
  end.

Fixpoint endswith_sep (s : string) : bool :=
  match s with
  | EmptyString => false
  | String c EmptyString => Ascii.eqb c sep
  | String _ t => endswith_sep t
  end.

(** One round of the loop of [posixpath.join]: [path] joined with the next
    component [b]. *)
Definition join2 (path b : string) : string :=
  if startswith_sep b then b
  else if (String.eqb path "" || endswith_sep path)%bool then path ++ b
  else path ++ "/" ++ b.

(** [os.path.join(a, *p)]. *)
Definition join (a : string) (p : list string) : string :=
  fold_left join2 p a.

(** [str.rfind(sep)]: the index of the last separator, [-1] without one. *)
Fixpoint rfind_sep (p : string) : Z :=
  match p with
  | EmptyString => (-1)%Z
  | String c t =>
      let r := rfind_sep t in
      if (0 <=? r)%Z then (r + 1)%Z
      else if Ascii.eqb c sep then 0%Z
      else (-1)%Z
  end.

(** The slice [p[i:]]. *)
Fixpoint drop (i : nat) (p : string) : string :=
  match i, p with
  | O, _ => p
  | S _, EmptyString => EmptyString
  | S j, String _ t => drop j t
  end.

(** [os.path.basename(p)]: [i = p.rfind(sep) + 1; return p[i:]]. *)
Definition basename (p : string) : string :=
  let i := (rfind_sep p + 1)%Z in
  drop (Z.to_nat i) p.

(** The names a path walks through, as the kernel resolves it: separators
    split, empty components (doubled or trailing separators) vanish. *)
Fixpoint components (p : string) : list string :=
  match p with
  | EmptyString => []
  | String c t =>
      if Ascii.eqb c sep then components t
      else if (String.eqb t "" || startswith_sep t)%bool
           then String c "" :: components t
           else match components t with
                | h :: r => String c h :: r
                | [] => [String c ""]
                end
  end.

Fixpoint has_sep (s : string) : bool :=
  match s with
  | EmptyString => false
  | String c t => (Ascii.eqb c sep || has_sep t)%bool
  end.

End os_path.

(** ** The file system behind [tf.io.gfile] *)

Definition bytes : Type := string.

(** A file holds bytes; a directory holds named entries, in the order the
    file system enumerates them. *)
#[warnings="-register-all"]
Inductive node : Type :=
| File (content : bytes)
| Dir (entries : list (string * node)).

Definition entries_of (n : node) : list (string * node) :=
  match n with Dir es => es | File _ => [] end.

Fixpoint child (name : string) (es : list (string * node)) : option node :=
  match es with
  | [] => None
  | (n, x) :: rest => if String.eqb n name then Some x else child name rest
  end.

(** Path resolution from the root of the tree. *)
Fixpoint resolve_from (n : node) (comps : list string) : option node :=
  match comps with
  | [] => Some n
  | c :: cs =>
      match n with
      | Dir es =>
          match child c es with
          | Some m => resolve_from m cs
          | None => None
          end
      | File _ => None
      end
  end.

(** A name a directory entry can have: not empty, no separator. *)
Definition valid_name (s : string) : bool :=
  (negb (String.eqb s "") && negb (os_path.has_sep s))%bool.

Fixpoint nodupb (l : list string) : bool :=
  match l with
  | [] => true
  | x :: t => (negb (existsb (String.eqb x) t) && nodupb t)%bool
  end.

(** A well-formed tree: in every directory the entry names are valid and
    pairwise distinct. *)
Fixpoint wf_node (n : node) : bool :=
  match n with
  | File _ => true
  | Dir es =>
      (forallb valid_name (map fst es)
       && nodupb (map fst es)
       && (fix all (l : list (string * node)) : bool :=
             match l with
             | [] => true
             | (_, x) :: t => (wf_node x && all t)%bool
             end) es)%bool
  end.

(** *** Pattern matching of [tf.io.gfile.glob]

    [fnmatch] on one path component: [*] matches any run of characters, [?]
    any one character, every other character itself.  Bracket expressions and
    backslash escapes of the C library's matcher are outside this model: a
    statement below that needs a component matched literally assumes the
    component free of all four metacharacters ([no_magic]). *)

Definition is_magic (c : ascii) : bool :=
  (Ascii.eqb c "*" || Ascii.eqb c "?" || Ascii.eqb c "[" || Ascii.eqb c "\")%bool.

Fixpoint no_magic (s : string) : bool :=
  match s with
  | EmptyString => true
  | String c t => (negb (is_magic c) && no_magic t)%bool
  end.

Fixpoint fnmatch (pat : string) : string -> bool :=
  match pat with
  | EmptyString => fun s => String.eqb s ""
  | String c pt =>
      if Ascii.eqb c "*" then
        fix star (s : string) : bool :=
          (fnmatch pt s
           || match s with
              | EmptyString => false
              | String _ st => star st
              end)%bool
      else if Ascii.eqb c "?" then
        fun s => match s with
                 | EmptyString => false
                 | String _ st => fnmatch pt st
                 end
      else
        fun s => match s with
                 | EmptyString => false
                 | String d st => (Ascii.eqb c d && fnmatch pt st)%bool
                 end
  end.

(** The paths below [n] that match the pattern components [pats], each
    written as [prefix] followed by the matched names. *)
Fixpoint glob_from (n : node) (prefix : string) (pats : list string)
  : list string :=
  match pats with
  | [] => [prefix]
  | p :: ps =>
      flat_map
        (fun e : string * node =>
           if fnmatch p (fst e)
           then glob_from (snd e) (os_path.join2 prefix (fst e)) ps
           else [])
        (entries_of n)
  end.

Section FileSystem.

(** The root directory of the file system, which is also the working
    directory: absolute and relative paths resolve alike. *)
Variable root : node.

(** The node a path names.  The empty path names nothing (the file system
    reports it as not found); any other path is walked from the root, name
    by name.  The components [.] and [..] are not interpreted: they are
    looked up like any other name, so the statements below about a path
    that resolves speak of paths written with entry names only. *)
Definition resolve (path : string) : option node :=
  if String.eqb path "" then None
  else resolve_from root (os_path.components path).

(** [tf.io.gfile.listdir(path)]: the names of the entries of a directory,
    [NotFoundError] when [path] is not a directory. *)
Definition listdir (path : string) : result (list string) :=
  match resolve path with
  | Some (Dir es) => inr (map fst es)
  | _ => inl NotFoundError
  end.

(** [tf.io.gfile.glob(pattern)]: the existing paths that match [pattern]
    component by component; a pattern under something that is not a
    directory matches nothing. *)
Definition glob (pattern : string) : list string :=
  glob_from root
            (if os_path.startswith_sep pattern then "/" else "")
            (os_path.components pattern).

End FileSystem.

(** ** The image library

    [PIL_Image.open] identifies a file from the bytes it reads through the
    file object and returns an image whose pixel data is not decoded yet;
    [np.array] forces the decoding, for which the image reads the pixel data
    through the file object it was opened on.  Either step fails on data it
    cannot handle.  Both are collaborators, so the adapter is defined over
    any codec. *)

Record Codec : Type := {
  PilImage : Type;
  ndarray : Type;
  PIL_Image_open : bytes -> option PilImage;
  np_array : PilImage -> bytes -> option ndarray
}.

(** ** Effects of [_load_tif]: a log of the operations on the file handle *)

Inductive event : Type :=
| GFile_enter (path : string)   (* [with tf.io.gfile.GFile(path, "rb") as fp] *)
| PIL_open (path : string)      (* [PIL_Image.open(fp)] is called *)
| GFile_reads (path : string)   (* a read through the file object *)
| GFile_exit (path : string)    (* leaving the [with] block closes [fp] *)
| np_array_of (path : string).  (* [np.array(image)] is called *)

(** Computations that extend the log and either return or raise. *)
Definition IO (A : Type) : Type := list event -> list event * result A.

Definition ret {A : Type} (a : A) : IO A := fun t => (t, inr a).
Definition raise {A : Type} (e : exn) : IO A := fun t => (t, inl e).
Definition bind {A B : Type} (m : IO A) (k : A -> IO B) : IO B :=
  fun t =>
    match m t with
    | (t', inr a) => k a t'
    | (t', inl e) => (t', inl e)
    end.
Definition emit (ev : event) : IO unit := fun t => (t ++ [ev], inr tt).

Notation "x <- m ;; k" := (bind m (fun x => k))
  (at level 61, m at next level, right associativity).
Notation "m ;;; k" := (bind m (fun _ => k))
  (at level 61, right associativity).

(** The [with] statement: [exit] runs when the body returns and when it
    raises; the body's outcome is the statement's. *)
Definition with_ {R A : Type} (enter : IO R) (exit : R -> IO unit)
           (body : R -> IO A) : IO A :=
  fun t =>
    match enter t with
    | (t1, inl e) => (t1, inl e)
    | (t1, inr r) =>
        let '(t2, res) := body r t1 in
        let '(t3, _) := exit r t2 in
        (t3, res)
    end.

Definition run {A : Type} (m : IO A) : list event * result A := m [].
Definition log_of {A : Type} (m : IO A) : list event := fst (run m).
Definition outcome {A : Type} (m : IO A) : result A := snd (run m).

(** ** Versions ([tfds.core.Version]) *)

Inductive Experiment : Type := DUMMY | S3.

Record Version : Type := {
  major : nat;
  minor : nat;
  patch : nat;
  experiments : Experiment -> bool
}.

(** The experiments of a version built without an [experiments] argument:
    the version history of the builder records 1.0.0 and 2.0.0 as S3. *)
Definition default_experiments (e : Experiment) : bool :=
  match e with DUMMY => false | S3 => true end.

Definition implements (v : Version) (e : Experiment) : bool := experiments v e.

Definition VERSION : Version :=
  {| major := 0; minor := 0; patch := 1;
     experiments := fun e => match e with S3 => false | _ => default_experiments e end |}.

Definition SUPPORTED_VERSIONS : list Version :=
  [ {| major := 2; minor := 0; patch := 0; experiments := default_experiments |};
    {| major := 1; minor := 0; patch := 0; experiments := default_experiments |} ].

(** ** Records and splits *)

(** The value under ["label"]: the [ClassLabel] feature takes a class name
    or a class index. *)
Inductive label_value : Type :=
| LabelName (name : string)
| LabelIndex (index : nat).

Record ImageRecord (A : Type) : Type := {
  image : A;
  label : label_value;
  filename : string
}.

(** What the generator yields: [filename, record] or the bare [record]. *)
Inductive yielded (A : Type) : Type :=
| Keyed (key : string) (record : ImageRecord A)
| Bare (record : ImageRecord A).

Definition record_of {A : Type} (y : yielded A) : ImageRecord A :=
  match y with Keyed _ r => r | Bare r => r end.

Definition key_of {A : Type} (y : yielded A) : option string :=
  match y with Keyed k _ => Some k | Bare _ => None end.

(** A run of a Python generator: what it yielded, and the exception that
    ended it, if one did. *)
Definition generated (A : Type) : Type := (list A * option exn)%type.

Definition done {A : Type} : generated A := ([], None).
Definition raised {A : Type} (e : exn) : generated A := ([], Some e).
Definition yield {A : Type} (a : A) (rest : generated A) : generated A :=
  (a :: fst rest, snd rest).
(** One loop body after another: the second runs when the first ended
    without an exception. *)
Definition and_then {A : Type} (g : generated A) (rest : generated A)
  : generated A :=
  match snd g with
  | Some e => g
  | None => (fst g ++ fst rest, snd rest)
  end.

Definition Split_TRAIN : string := "train".

Record SplitGenerator : Type := {
  name : string;
  num_shards : nat;
  gen_kwargs : list (string * string)
}.

Record DownloadManager : Type := {
  download_and_extract : string -> result string
}.

(** ** The builder [UcMerced] *)

Section UcMerced.

Variable codec : Codec.
Variable root : node.

(** [tf.io.gfile.GFile(path, "rb")] as a context manager.  The file object
    is named by its path; nothing is read before the first read. *)
Definition GFile (path : string) : IO string :=
  emit (GFile_enter path) ;;; ret path.

Definition GFile_close (fp : string) : IO unit := emit (GFile_exit fp).

(** Reading through the file object: the bytes of the file, or the file
    system's error.  A [GFile] opens its stream at the first read, and opens
    it again at a read that comes after [close]: a read gives the same
    result whether the handle was closed or not. *)
Definition GFile_read (fp : string) : IO bytes :=
  emit (GFile_reads fp) ;;;
  match resolve root fp with
  | Some (File content) => ret content
  | Some (Dir _) => raise FailedPreconditionError
  | None => raise NotFoundError
  end.

(** [PIL_Image.open(fp)]: the image keeps the file object it was opened
    on. *)
Definition PIL_Image_open_fp (fp : string) : IO (string * PilImage codec) :=
  emit (PIL_open fp) ;;;
  content <- GFile_read fp ;;
  match PIL_Image_open codec content with
  | Some im => ret (fp, im)
  | None => raise ImageDecodeError
  end.

(** [np.array(image)]: the image loads its pixel data through its file
    object and decodes it. *)
Definition np_array_image (image : string * PilImage codec)
  : IO (ndarray codec) :=
  emit (np_array_of (fst image)) ;;;
  content <- GFile_read (fst image) ;;
  match np_array codec (snd image) content with
  | Some a => ret a
  | None => raise ImageDecodeError
  end.

Definition _load_tif (path : string) : IO (ndarray codec) :=
  image <- with_ (GFile path) GFile_close
                 (fun fp => PIL_Image_open_fp fp) ;;
  np_array_image image.

Variable version : Version.

(** The inner loop of [_generate_examples] over the paths [glob]
    returned for [label]. *)
Fixpoint for_filename (label : string) (filenames : list string)
  : generated (yielded (ndarray codec)) :=
  match filenames with
  | [] => done
  | filename :: rest =>
      match outcome (_load_tif filename) with
      | inl e => raised e
      | inr image =>
          let filename := os_path.basename filename in
          let record := {| image := image;
                           label := LabelName label;
                           filename := filename |} in
          yield (if implements version S3
                 then Keyed filename record
                 else Bare record)
                (for_filename label rest)
      end
  end.

(** The outer loop over the names [listdir] returned. *)
Fixpoint for_label (path : string) (labels : list string)
  : generated (yielded (ndarray codec)) :=
  match labels with
  | [] => done
  | label :: rest =>
      and_then
        (for_filename label
           (glob root (os_path.join path [label; "*.tif"])))
        (for_label path rest)
  end.

Definition _generate_examples (path : string)
  : generated (yielded (ndarray codec)) :=
  match listdir root path with
  | inl e => raised e
  | inr labels => for_label path labels
  end.

Definition _split_generators (dl_manager : DownloadManager)
  : result (list SplitGenerator) :=
  match download_and_extract dl_manager _ZIP_URL with
  | inl e => inl e
  | inr path =>
      inr [ {| name := Split_TRAIN;
               num_shards := 1;
               gen_kwargs := [("path", os_path.join path [_ZIP_SUBDIR])] |} ]
  end.

End UcMerced.

(** ** The label catalog *)

Fixpoint index_in (names : list string) (name : string) : option nat :=
  match names with
  | [] => None
  | n :: rest =>
      if String.eqb n name then Some 0
      else option_map S (index_in rest name)
  end.

(** Modelled from the spec: [index_of], the name-to-index lookup of the
    Label Catalog (the [ClassLabel] feature of the framework, which is not
    among the sources): the position of [name] in the catalog,
    [UnknownLabelError] for a name that is not in it. *)
Definition index_of (name : string) : result nat :=
  match index_in _LABELS name with
  | Some i => inr i
  | None => inl UnknownLabelError
  end.

(** Modelled from the spec: the encoding of a record's label by the
    [ClassLabel] feature (not among the sources): a name is resolved by
    [index_of], an index is kept when it is in range. *)
Definition encode_label (v : label_value) : result nat :=
  match v with
  | LabelName s => index_of s
  | LabelIndex i =>
      if Nat.ltb i (List.length _LABELS) then inr i else inl UnknownLabelError
  end.

(** ** What a path loads to

    The result [_load_tif] computes, read off the node a path resolves to. *)

(** Decoding the bytes of a file: identification, then the pixel data. *)
Definition decode (codec : Codec) (content : bytes) : result (ndarray codec) :=
  match PIL_Image_open codec content with
  | Some im =>
      match np_array codec im content with
      | Some a => inr a
      | None => inl ImageDecodeError
      end
  | None => inl ImageDecodeError
  end.

Definition load_node (codec : Codec) (o : option node) : result (ndarray codec) :=
  match o with
  | Some (File content) => decode codec content
  | Some (Dir _) => inl FailedPreconditionError
  | None => inl NotFoundError
  end.

(** A path written with entry names only: no component is [.] or [..]. *)
Definition no_dots (path : string) : bool :=
  forallb (fun c => negb (String.eqb c ".") && negb (String.eqb c ".."))%bool
          (os_path.components path).

(** *** Reading the log of [_load_tif] *)

(** The path of the file object an event is about. *)
Definition event_path (ev : event) : string :=
  match ev with
  | GFile_enter p | PIL_open p | GFile_reads p | GFile_exit p
  | np_array_of p => p
  end.

Definition is_enter (ev : event) : bool :=
  match ev with GFile_enter _ => true | _ => false end.

Definition is_exit (ev : event) : bool :=
  match ev with GFile_exit _ => true | _ => false end.

(** ** The run of the generator, read as one pass over a list

    The two nested loops visit (label, path) pairs; each pair either yields
    an item or raises, which ends the run. *)

(** The item the loop body yields for [label], the base name [filename] and
    the loaded [image]. *)
Definition emitted {A : Type} (version : Version) (label filename : string)
           (image : A) : yielded A :=
  let record := {| image := image;
                   label := LabelName label;
                   filename := filename |} in
  if implements version S3 then Keyed filename record else Bare record.

(** The pairs the loops visit, in order: for each listed label, the paths
    [glob] returns for it. *)
Definition visited (root : node) (path : string) (labels : list string)
  : list (string * string) :=
  flat_map
    (fun label =>
       map (pair label) (glob root (os_path.join path [label; "*.tif"])))
    labels.

(** One round of the loop body on a visited pair. *)
Definition example_of (codec : Codec) (root : node) (version : Version)
           (lf : string * string) : result (yielded (ndarray codec)) :=
  match outcome (_load_tif codec root (snd lf)) with
  | inl e => inl e
  | inr image =>
      inr (emitted version (fst lf) (os_path.basename (snd lf)) image)
  end.

(** Yield results in order up to the first exception. *)
Fixpoint until_raise {A : Type} (rs : list (result A)) : generated A :=
  match rs with
  | [] => done
  | inl e :: _ => raised e
  | inr a :: rest => yield a (until_raise rest)
  end.

(** *** The same, read off the directory tree *)

Definition is_tif (e : string * node) : bool := fnmatch "*.tif" (fst e).

(** The entries of a label folder that match the extension filter; a plain
    file at the label level has none. *)
Definition tif_entries (n : node) : list (string * node) :=
  filter is_tif (entries_of n).

(** The matched entries of a split directory with entries [es], each with
    the name of the label-level entry that contains it. *)
Definition matched (es : list (string * node))
  : list (string * (string * node)) :=
  flat_map (fun l => map (pair (fst l)) (tif_entries (snd l))) es.

Definition entry_name (m : string * (string * node)) : string := fst (snd m).

(** The loop body on a matched entry. *)
Definition entry_example (codec : Codec) (version : Version)
           (m : string * (string * node)) : result (yielded (ndarray codec)) :=
  match load_node codec (Some (snd (snd m))) with
  | inl e => inl e
  | inr image => inr (emitted version (fst m) (fst (snd m)) image)
  end.

(** The keys of a run. *)
Definition keys {A : Type} (ys : list (yielded A)) : list string :=
  flat_map (fun y => match key_of y with Some k => [k] | None => [] end) ys.

(** The layout the directory-level statements assume: a well-formed tree in
    which [path] names a directory with entries [es], and neither the
    components of [path] nor the names in [es] contain a metacharacter of
    [glob]. *)
Definition layout (root : node) (path : string) (es : list (string * node))
  : Prop :=
  wf_node root = true
  /\ forallb no_magic (os_path.components path) = true
  /\ resolve root path = Some (Dir es)
  /\ forallb no_magic (map fst es) = true.

(** ** A small world to run the adapter on *)

Module Toy.

(** A toy codec: a file whose bytes start with [II] is an image, which
    [PIL_Image_open] identifies by those two bytes; its pixel data is the
    rest, and decodes unless it is empty. *)
Definition codec : Codec :=
  {| PilImage := unit;
     ndarray := string;
     PIL_Image_open := fun b =>
       match b with
       | String "I" (String "I" _) => Some tt
       | _ => None
       end;
     np_array := fun _ b =>
       match os_path.drop 2 b with
       | EmptyString => None
       | pixels => Some pixels
       end |}.

Definition v1 : Version :=
  {| major := 1; minor := 0; patch := 0; experiments := default_experiments |}.

(** [/r/Images]: two label folders of the catalog, a stray file, a folder
    without entries and a folder outside the catalog. *)
Definition images : node :=
  Dir [ ("agricultural", Dir [ ("a.tif", File "IIaa");
                               ("notes.txt", File "hello");
                               ("b.tif", File "IIbb") ]);
        ("readme.txt", File "readme");
        ("beach", Dir [ ("c.tif", File "IIcc") ]);
        ("empty", Dir []);
        ("unknown", Dir [ ("u.tif", File "IIuu") ]) ].

Definition root : node := Dir [ ("r", Dir [ ("Images", images) ]) ].

(** The same layout with a file that is not an image between two that
    are. *)
Definition corrupt_images : node :=
  Dir [ ("agricultural", Dir [ ("a.tif", File "IIaa");
                               ("bad.tif", File "garbage");
                               ("b.tif", File "IIbb") ]);
        ("beach", Dir [ ("c.tif", File "IIcc") ]) ].

Definition corrupt_root : node :=
  Dir [ ("r", Dir [ ("Images", corrupt_images) ]) ].

(** Two label folders that each hold a file named [a.tif]. *)
Definition twin_images : node :=
  Dir [ ("agricultural", Dir [ ("a.tif", File "IIaa") ]);
        ("beach", Dir [ ("a.tif", File "IIbb") ]) ].

Definition twin_root : node := Dir [ ("r", Dir [ ("Images", twin_images) ]) ].

(** A split directory without a single matching file. *)
Definition bare_images : node :=
  Dir [ ("agricultural", Dir [ ("notes.txt", File "hello");
                               ("a.tiff", File "IIaa") ]);
        ("readme.txt", File "readme");
        ("empty", Dir []) ].

Definition bare_root : node := Dir [ ("r", Dir [ ("Images", bare_images) ]) ].

(** The split directory of [root] somewhere else, under another name. *)
Definition moved_root : node := Dir [ ("data", Dir [ ("x", images) ]) ].

(** A download manager that extracts the archive to [/r]. *)
Definition dl_manager : DownloadManager :=
  {| download_and_extract := fun _ => inr "/r" |}.

End Toy.

(** * Properties *)

Unset Implicit Arguments.

Example basename_ex1 : os_path.basename "/r/Images/beach/c.tif" = "c.tif".
Proof. reflexivity. Qed.
Example basename_ex2 : os_path.basename "c.tif" = "c.tif".
Proof. reflexivity. Qed.
Example basename_ex3 : os_path.basename "a/b/" = "".
Proof. reflexivity. Qed.
Example join_ex1 : os_path.join "/r" ["beach"; "*.tif"] = "/r/beach/*.tif".
Proof. reflexivity. Qed.
Example join_ex2 : os_path.join "/r/" ["beach"; "*.tif"] = "/r/beach/*.tif".
Proof. reflexivity. Qed.
Example components_ex1 :
  os_path.components "/r//Images/beach/" = ["r"; "Images"; "beach"].
Proof. reflexivity. Qed.
Example fnmatch_ex1 : fnmatch "*.tif" "a.tif" = true.
Proof. reflexivity. Qed.
Example fnmatch_ex2 : fnmatch "*.tif" "a.tiff" = false.
Proof. reflexivity. Qed.
Example fnmatch_ex3 : fnmatch "*.tif" ".tif.tif" = true.
Proof. reflexivity. Qed.
Example toy_run_keyed :
  _generate_examples Toy.codec Toy.root Toy.v1 "/r/Images" =
  ([ Keyed "a.tif" {| image := "aa"; label := LabelName "agricultural"; filename := "a.tif" |};
     Keyed "b.tif" {| image := "bb"; label := LabelName "agricultural"; filename := "b.tif" |};
     Keyed "c.tif" {| image := "cc"; label := LabelName "beach"; filename := "c.tif" |};
     Keyed "u.tif" {| image := "uu"; label := LabelName "unknown"; filename := "u.tif" |} ],
   None).
Proof. reflexivity. Qed.
Example toy_run_unkeyed :
  _generate_examples Toy.codec Toy.corrupt_root VERSION "/r/Images" =
  ([ Bare {| image := "aa"; label := LabelName "agricultural"; filename := "a.tif" |} ],
   Some ImageDecodeError).
Proof. reflexivity. Qed.
Example versions_S3 :
  implements VERSION S3 = false
  /\ Forall (fun v => implements v S3 = true) SUPPORTED_VERSIONS.
Proof. split; [reflexivity | repeat constructor]. Qed.
Example toy_run_empty_path :
  _generate_examples Toy.codec Toy.images VERSION "" = ([], Some NotFoundError).
Proof. reflexivity. Qed.
Example toy_run_missing :
  _generate_examples Toy.codec Toy.root VERSION "/r/Pictures" =
  ([], Some NotFoundError).
Proof. reflexivity. Qed.

(** ** Paths *)

Module os_path_facts.
Import os_path.
Local Open Scope string_scope.

Lemma append_nil_r (s : string) : s ++ "" = s.
Proof. induction s; simpl; congruence. Qed.

Lemma append_assoc (a b c : string) : (a ++ b) ++ c = a ++ (b ++ c).
Proof. induction a; simpl; congruence. Qed.

Lemma endswith_sep_split (a : string) :
  endswith_sep a = true -> exists a', a = a' ++ "/".
Proof.
  induction a as [|c t IH]; simpl; [discriminate|].
  destruct t as [|d t'].
  - intros H. apply Ascii.eqb_eq in H. subst c. exists "". reflexivity.
  - intros H. destruct (IH H) as [a' Ha']. exists (String c a').
    simpl. now rewrite <- Ha'.
Qed.

Lemma components_nonempty (c : ascii) (t : string) :
  Ascii.eqb c sep = false -> components (String c t) <> [].
Proof.
  intros Hc. simpl. rewrite Hc.
  destruct (String.eqb t "" || startswith_sep t)%bool; [discriminate|].
  destruct (components t); discriminate.
Qed.

Lemma components_app_sep (a b : string) :
  components (a ++ String sep b) = (components a ++ components b)%list.
Proof.
  induction a as [|c t IH].
  - reflexivity.
  - cbn [append components]. destruct (Ascii.eqb c sep) eqn:Hc; [exact IH|].
    destruct t as [|d t'].
    + cbn. reflexivity.
    + cbn [append String.eqb startswith_sep orb] in *.
      destruct (Ascii.eqb d sep) eqn:Hd.
      * rewrite IH. reflexivity.
      * rewrite IH.
        pose proof (components_nonempty d t' Hd) as Hne.
        destruct (components (String d t')) as [|h r]; [congruence|].
        reflexivity.
Qed.

Lemma components_join2 (a b : string) :
  startswith_sep b = false ->
  components (join2 a b) = (components a ++ components b)%list.
Proof.
  intros Hb. unfold join2. rewrite Hb.
  destruct (String.eqb a "") eqn:Ha.
  - apply String.eqb_eq in Ha. subst a. reflexivity.
  - cbn [orb]. destruct (endswith_sep a) eqn:He.
    + destruct (endswith_sep_split a He) as [a' ->].
      rewrite append_assoc. cbn [append].
      rewrite !(components_app_sep a'). cbn. now rewrite app_nil_r.
    + apply components_app_sep.
Qed.

Lemma valid_name_inv (c : ascii) (t : string) :
  valid_name (String c t) = true ->
  Ascii.eqb c sep = false /\ has_sep t = false.
Proof.
  unfold valid_name. cbn. intros H.
  destruct (Ascii.eqb c sep); cbn in H; [discriminate|].
  destruct (has_sep t); [discriminate|]. auto.
Qed.

Lemma valid_name_nosep (n : string) :
  valid_name n = true -> has_sep n = false.
Proof.
  unfold valid_name. destruct (has_sep n); [|reflexivity].
  rewrite andb_false_r. discriminate.
Qed.

Lemma nosep_startswith (n : string) :
  has_sep n = false -> startswith_sep n = false.
Proof.
  destruct n as [|c t]; cbn; [reflexivity|].
  destruct (Ascii.eqb c sep); [discriminate | reflexivity].
Qed.

Lemma components_name (n : string) :
  valid_name n = true -> components n = [n].
Proof.
  induction n as [|c t IH]; [discriminate|].
  intros H. destruct (valid_name_inv _ _ H) as [Hc Ht].
  cbn [components]. rewrite Hc.
  destruct t as [|d t']; [reflexivity|].
  cbn [String.eqb orb]. rewrite (nosep_startswith _ Ht).
  rewrite IH; [reflexivity|].
  unfold valid_name. rewrite Ht. reflexivity.
Qed.

(** Every component of a path is a valid name. *)
Lemma components_valid (p : string) :
  forallb valid_name (components p) = true.
Proof.
  induction p as [|c t IH]; [reflexivity|].
  cbn [components]. destruct (Ascii.eqb c sep) eqn:Hc; [exact IH|].
  destruct (String.eqb t "" || startswith_sep t)%bool eqn:Ht.
  - cbn [forallb]. rewrite IH. unfold valid_name. cbn. rewrite Hc. reflexivity.
  - destruct (components t) as [|h r]; cbn [forallb] in *.
    + unfold valid_name. cbn. rewrite Hc. reflexivity.
    + apply andb_true_iff in IH. destruct IH as [Hh Hr]. rewrite Hr.
      rewrite andb_true_r. unfold valid_name in *. cbn. rewrite Hc. cbn.
      apply andb_true_iff in Hh. destruct Hh as [_ Hh]. exact Hh.
Qed.

Lemma components_join_names (names : list string) (pre : string) :
  forallb valid_name names = true ->
  components (fold_left join2 names pre) = (components pre ++ names)%list.
Proof.
  revert pre. induction names as [|n ns IH]; intros pre H; cbn [fold_left].
  - now rewrite app_nil_r.
  - cbn [forallb] in H. apply andb_true_iff in H. destruct H as [Hn Hns].
    rewrite (IH _ Hns).
    rewrite components_join2
      by (apply nosep_startswith, valid_name_nosep, Hn).
    rewrite (components_name _ Hn), <- app_assoc. reflexivity.
Qed.

Lemma rfind_sep_lower (p : string) : (-1 <= rfind_sep p)%Z.
Proof.
  induction p as [|c t IH]; cbn [rfind_sep]; [lia|].
  destruct (0 <=? rfind_sep t)%Z eqn:H.
  - apply Z.leb_le in H. lia.
  - destruct (Ascii.eqb c sep); lia.
Qed.

Lemma rfind_sep_nosep (p : string) :
  has_sep p = false -> rfind_sep p = (-1)%Z.
Proof.
  induction p as [|c t IH]; cbn; [reflexivity|].
  destruct (Ascii.eqb c sep); [discriminate|]. cbn. intros H.
  rewrite (IH H). reflexivity.
Qed.

Lemma basename_nosep (n : string) : has_sep n = false -> basename n = n.
Proof.
  intros H. unfold basename. rewrite (rfind_sep_nosep _ H). reflexivity.
Qed.

Lemma basename_has_no_sep (p : string) : has_sep (basename p) = false.
Proof.
  unfold basename. induction p as [|c t IH]; [reflexivity|].
  cbn [rfind_sep]. pose proof (rfind_sep_lower t) as Hlo.
  destruct (0 <=? rfind_sep t)%Z eqn:H.
  - apply Z.leb_le in H.
    replace (Z.to_nat (rfind_sep t + 1 + 1)) with (S (Z.to_nat (rfind_sep t + 1)))
      by lia.
    exact IH.
  - apply Z.leb_gt in H. assert (Hr : rfind_sep t = (-1)%Z) by lia.
    rewrite Hr in IH. cbn in IH.
    destruct (Ascii.eqb c sep) eqn:Hc; cbn; [exact IH|].
    rewrite Hc. exact IH.
Qed.

Lemma basename_app_sep (d n : string) :
  has_sep n = false -> basename (d ++ String sep n) = n.
Proof.
  intros Hn. unfold basename.
  assert (Hr : forall d, rfind_sep (d ++ String sep n) = Z.of_nat (String.length d)).
  { clear d. induction d as [|c t IH].
    - cbn. rewrite (rfind_sep_nosep _ Hn). reflexivity.
    - cbn [append rfind_sep String.length]. rewrite IH.
      destruct (0 <=? Z.of_nat (String.length t))%Z eqn:H; [lia|].
      apply Z.leb_gt in H. lia. }
  rewrite Hr. replace (Z.to_nat (Z.of_nat (String.length d) + 1))
    with (S (String.length d)) by lia.
  clear Hr. induction d as [|c t IH]; [reflexivity|exact IH].
Qed.

Lemma basename_join2 (d n : string) :
  has_sep n = false -> basename (join2 d n) = n.
Proof.
  intros Hn. unfold join2. rewrite (nosep_startswith _ Hn).
  destruct (String.eqb d "") eqn:Hd.
  - apply String.eqb_eq in Hd. subst d. now apply basename_nosep.
  - cbn [orb]. destruct (endswith_sep d) eqn:He.
    + destruct (endswith_sep_split d He) as [d' ->].
      rewrite append_assoc. cbn [append]. now apply basename_app_sep.
    + now apply basename_app_sep.
Qed.

End os_path_facts.

(** ** The file system *)

Lemma nodupb_NoDup (l : list string) : nodupb l = true -> NoDup l.
Proof.
  induction l as [|x t IH]; cbn; intros H; constructor.
  - apply andb_true_iff in H. destruct H as [H _].
    intros Hin. apply negb_true_iff in H.
    assert (existsb (String.eqb x) t = true); [|congruence].
    apply existsb_exists. exists x. split; [exact Hin | apply String.eqb_refl].
  - apply andb_true_iff in H. apply IH, H.
Qed.

Lemma wf_Dir_inv (es : list (string * node)) :
  wf_node (Dir es) = true ->
  forallb valid_name (map fst es) = true
  /\ nodupb (map fst es) = true
  /\ (forall n x, In (n, x) es -> wf_node x = true).
Proof.
  cbn [wf_node]. intros H.
  apply andb_true_iff in H. destruct H as [H Hall].
  apply andb_true_iff in H. destruct H as [Hv Hn].
  repeat split; trivial.
  clear Hv Hn. induction es as [|[m y] t IH]; intros n x Hin; [destruct Hin|].
  apply andb_true_iff in Hall. destruct Hall as [Hy Ht].
  destruct Hin as [Heq | Hin]; [congruence | eauto].
Qed.

Lemma forallb_fst_In (P : string -> bool) (es : list (string * node))
      (n : string) (x : node) :
  forallb P (map fst es) = true -> In (n, x) es -> P n = true.
Proof.
  intros H Hin. rewrite forallb_forall in H. apply H.
  change n with (fst (n, x)). now apply in_map.
Qed.

Lemma child_Some_In (name : string) (es : list (string * node)) (x : node) :
  child name es = Some x -> In (name, x) es.
Proof.
  induction es as [|[n y] t IH]; cbn; [discriminate|].
  destruct (String.eqb n name) eqn:E.
  - apply String.eqb_eq in E. intros [= ->]. left. congruence.
  - auto.
Qed.

Lemma In_child (name : string) (es : list (string * node)) (x : node) :
  nodupb (map fst es) = true -> In (name, x) es -> child name es = Some x.
Proof.
  induction es as [|[n y] t IH]; cbn [child map fst nodupb]; intros Hnd Hin;
    [destruct Hin|].
  apply andb_true_iff in Hnd. destruct Hnd as [Hx Ht].
  destruct Hin as [Heq | Hin].
  - injection Heq as -> ->. now rewrite String.eqb_refl.
  - destruct (String.eqb n name) eqn:E; [|auto].
    apply String.eqb_eq in E. subst n. apply negb_true_iff in Hx.
    assert (existsb (String.eqb name) (map fst t) = true); [|congruence].
    apply existsb_exists. exists name. split; [|apply String.eqb_refl].
    change name with (fst (name, x)). now apply in_map.
Qed.

Lemma resolve_from_app (a b : list string) (n : node) :
  resolve_from n (a ++ b) =
  match resolve_from n a with
  | Some m => resolve_from m b
  | None => None
  end.
Proof.
  revert n. induction a as [|c cs IH]; intros n; cbn; [reflexivity|].
  destruct n as [|es]; [reflexivity|].
  destruct (child c es); [apply IH | reflexivity].
Qed.

Lemma wf_resolve_from (comps : list string) (n m : node) :
  wf_node n = true -> resolve_from n comps = Some m -> wf_node m = true.
Proof.
  revert n. induction comps as [|c cs IH]; intros n Hwf; cbn.
  - now intros [= <-].
  - destruct n as [|es]; [discriminate|].
    destruct (child c es) as [x|] eqn:E; [|discriminate].
    apply IH. apply wf_Dir_inv in Hwf. destruct Hwf as (_ & _ & Hall).
    eapply Hall, child_Some_In, E.
Qed.

Lemma resolve_Some (root : node) (path : string) (n : node) :
  resolve root path = Some n ->
  path <> "" /\ resolve_from root (os_path.components path) = Some n.
Proof.
  unfold resolve. destruct (String.eqb path "") eqn:E; [discriminate|].
  apply String.eqb_neq in E. auto.
Qed.

Lemma resolve_nonempty (root : node) (path : string) :
  path <> "" ->
  resolve root path = resolve_from root (os_path.components path).
Proof.
  intros H. unfold resolve. apply String.eqb_neq in H. now rewrite H.
Qed.

Lemma join2_nonempty (a b : string) : b <> "" -> os_path.join2 a b <> "".
Proof.
  intros Hb. unfold os_path.join2.
  destruct (os_path.startswith_sep b); [exact Hb|].
  destruct (String.eqb a "" || os_path.endswith_sep a)%bool;
    destruct a; cbn; try discriminate; exact Hb.
Qed.

Lemma valid_name_nonempty (n : string) : valid_name n = true -> n <> "".
Proof. intros H ->. discriminate. Qed.

(** A pattern without metacharacters matches its own text only. *)
Lemma fnmatch_literal (p s : string) :
  no_magic p = true -> fnmatch p s = String.eqb p s.
Proof.
  revert s. induction p as [|c pt IH]; intros s; cbn [no_magic fnmatch].
  - intros _. apply String.eqb_sym.
  - intros H. apply andb_true_iff in H. destruct H as [Hc Hpt].
    apply negb_true_iff in Hc. unfold is_magic in Hc.
    apply orb_false_iff in Hc. destruct Hc as [Hc _].
    apply orb_false_iff in Hc. destruct Hc as [Hc _].
    apply orb_false_iff in Hc. destruct Hc as [Hstar Hq].
    rewrite Hstar, Hq. destruct s as [|d st]; cbn; [reflexivity|].
    now rewrite IH.
Qed.

Lemma flat_map_nil {A B : Type} (f : A -> list B) (l : list A) :
  (forall a, In a l -> f a = []) -> flat_map f l = [].
Proof.
  induction l as [|a t IH]; cbn; intros H; [reflexivity|].
  rewrite (H a) by now left. cbn. apply IH. intros; apply H; now right.
Qed.

Lemma flat_map_ext_in {A B : Type} (f g : A -> list B) (l : list A) :
  (forall a, In a l -> f a = g a) -> flat_map f l = flat_map g l.
Proof.
  induction l as [|a t IH]; cbn; intros H; [reflexivity|].
  rewrite (H a) by now left. f_equal. apply IH. intros; apply H; now right.
Qed.

Lemma flat_map_map {A B C : Type} (f : B -> list C) (g : A -> B) (l : list A) :
  flat_map f (map g l) = flat_map (fun a => f (g a)) l.
Proof. induction l as [|a t IH]; cbn; [reflexivity | now rewrite IH]. Qed.

Lemma map_flat_map {A B C : Type} (f : B -> C) (g : A -> list B) (l : list A) :
  map f (flat_map g l) = flat_map (fun a => map f (g a)) l.
Proof.
  induction l as [|a t IH]; cbn; [reflexivity|]. now rewrite map_app, IH.
Qed.

Lemma flat_map_select {A B : Type} (p : A -> bool) (f : A -> B) (l : list A) :
  flat_map (fun a => if p a then [f a] else []) l = map f (filter p l).
Proof.
  induction l as [|a t IH]; cbn; [reflexivity|].
  destruct (p a); cbn; now rewrite IH.
Qed.

(** In a directory with distinct names, the entries a literal name selects
    are the one [child] finds. *)
Lemma flat_map_child {B : Type} (c : string) (G : string * node -> list B)
      (es : list (string * node)) :
  nodupb (map fst es) = true ->
  flat_map (fun e => if String.eqb c (fst e) then G e else []) es =
  match child c es with
  | Some m => G (c, m)
  | None => []
  end.
Proof.
  induction es as [|[n x] t IH]; cbn [flat_map child map fst nodupb];
    intros Hnd; [reflexivity|].
  apply andb_true_iff in Hnd. destruct Hnd as [Hx Ht].
  rewrite (String.eqb_sym n c). destruct (String.eqb c n) eqn:E.
  - apply String.eqb_eq in E. subst n.
    rewrite flat_map_nil; [apply app_nil_r|].
    intros [n y] Hin. cbn [fst]. destruct (String.eqb c n) eqn:E'; [|reflexivity].
    apply negb_true_iff in Hx.
    assert (existsb (String.eqb c) (map fst t) = true); [|congruence].
    apply existsb_exists. exists n. split; [|exact E'].
    change n with (fst (n, y)). now apply in_map.
  - cbn [app]. now apply IH.
Qed.

(** Below a well-formed node, leading pattern components without
    metacharacters are resolved like a path. *)
Lemma glob_from_literal (comps ps : list string) :
  forall (n : node) (prefix : string),
    wf_node n = true ->
    forallb no_magic comps = true ->
    glob_from n prefix (comps ++ ps) =
    match resolve_from n comps with
    | Some m => glob_from m (fold_left os_path.join2 comps prefix) ps
    | None => []
    end.
Proof.
  induction comps as [|c cs IH]; intros n prefix Hwf Hlit; [reflexivity|].
  cbn [forallb] in Hlit. apply andb_true_iff in Hlit. destruct Hlit as [Hc Hcs].
  cbn [app glob_from resolve_from fold_left].
  destruct n as [|es]; [reflexivity|]. cbn [entries_of].
  destruct (wf_Dir_inv es Hwf) as (_ & Hnd & Hall).
  rewrite (flat_map_ext
             (fun e : string * node =>
                if fnmatch c (fst e)
                then glob_from (snd e) (os_path.join2 prefix (fst e)) (cs ++ ps)
                else [])
             (fun e : string * node =>
                if String.eqb c (fst e)
                then glob_from (snd e) (os_path.join2 prefix (fst e)) (cs ++ ps)
                else [])).
  2:{ intros e. now rewrite (fnmatch_literal c (fst e) Hc). }
  rewrite (flat_map_child c
             (fun e => glob_from (snd e) (os_path.join2 prefix (fst e)) (cs ++ ps))
             es Hnd).
  destruct (child c es) as [m|] eqn:E; [|reflexivity].
  cbn [fst snd]. apply IH; [|exact Hcs].
  eapply Hall, child_Some_In, E.
Qed.

(** *** What [_load_tif] returns *)

Lemma _load_tif_outcome (codec : Codec) (root : node) (path : string) :
  outcome (_load_tif codec root path) = load_node codec (resolve root path).
Proof.
  unfold outcome, run, _load_tif, bind, with_, GFile, GFile_close,
    PIL_Image_open_fp, GFile_read, np_array_image, bind, emit, ret, raise,
    load_node, decode.
  destruct (resolve root path) as [[content|es]|] eqn:E; cbn -[resolve];
    try reflexivity.
  destruct (PIL_Image_open codec content) as [im|]; cbn -[resolve];
    [|reflexivity].
  rewrite E. cbn.
  destruct (np_array codec im content); reflexivity.
Qed.

(** ** The generator as one pass *)

Lemma and_then_until {A : Type} (a b : list (result A)) :
  and_then (until_raise a) (until_raise b) = until_raise (a ++ b).
Proof.
  induction a as [|[e|x] r IH]; cbn [until_raise app].
  - unfold and_then, done. cbn. now destruct (until_raise b).
  - reflexivity.
  - rewrite <- IH. unfold and_then, yield. cbn [fst snd].
    destruct (until_raise r) as [ys [e|]]; reflexivity.
Qed.

Lemma until_raise_ok {A : Type} (xs : list A) :
  until_raise (map inr xs) = (xs, None).
Proof.
  induction xs as [|x t IH]; cbn [map until_raise]; [reflexivity|].
  rewrite IH. reflexivity.
Qed.

Lemma until_raise_stop {A : Type} (xs : list A) (e : exn) (rest : list (result A)) :
  until_raise (map inr xs ++ inl e :: rest) = (xs, Some e).
Proof.
  induction xs as [|x t IH]; cbn [map app until_raise]; [reflexivity|].
  rewrite IH. reflexivity.
Qed.

Section OnePass.

Variable codec : Codec.
Variable root : node.
Variable version : Version.

Lemma for_filename_until (label : string) (filenames : list string) :
  for_filename codec root version label filenames =
  until_raise (map (example_of codec root version) (map (pair label) filenames)).
Proof.
  induction filenames as [|f rest IH]; cbn [for_filename map until_raise];
    [reflexivity|].
  unfold example_of at 1. cbn [fst snd].
  destruct (outcome (_load_tif codec root f)) as [e|im]; [reflexivity|].
  rewrite IH. reflexivity.
Qed.

Lemma for_label_until (path : string) (labels : list string) :
  for_label codec root version path labels =
  until_raise (map (example_of codec root version) (visited root path labels)).
Proof.
  induction labels as [|l rest IH]; [reflexivity|].
  cbn [for_label]. unfold visited in *. cbn [flat_map].
  rewrite map_app, <- and_then_until, <- IH, for_filename_until. reflexivity.
Qed.

(** The generator is one pass over the visited pairs that stops at the first
    exception. *)
Lemma generate_examples_visited (path : string) :
  _generate_examples codec root version path =
  match listdir root path with
  | inl e => raised e
  | inr labels =>
      until_raise (map (example_of codec root version) (visited root path labels))
  end.
Proof.
  unfold _generate_examples. destruct (listdir root path); [reflexivity|].
  apply for_label_until.
Qed.

(** *** From paths to the entries of the tree *)

Lemma glob_label (path : string) (es : list (string * node))
      (l : string) (n : node) :
  layout root path es ->
  In (l, n) es ->
  exists D : string,
    glob root (os_path.join path [l; "*.tif"]) =
    map (fun e : string * node => os_path.join2 D (fst e)) (tif_entries n)
    /\ os_path.components D = os_path.components path ++ [l].
Proof.
  intros (Hwf & Hpath & Hres & Hes) Hin.
  apply resolve_Some in Hres. destruct Hres as [_ Hres].
  pose proof (wf_resolve_from _ _ _ Hwf Hres) as Hwfd.
  destruct (wf_Dir_inv es Hwfd) as (Hval & Hnd & Hall).
  pose proof (forallb_fst_In _ _ _ _ Hval Hin) as Hl.
  pose proof (forallb_fst_In _ _ _ _ Hes Hin) as Hlm.
  assert (Hcomps : os_path.components (os_path.join path [l; "*.tif"]) =
                   (os_path.components path ++ [l]) ++ ["*.tif"]).
  { unfold os_path.join. cbn [fold_left].
    rewrite os_path_facts.components_join2 by reflexivity.
    rewrite os_path_facts.components_join2
      by (apply os_path_facts.nosep_startswith, os_path_facts.valid_name_nosep, Hl).
    rewrite (os_path_facts.components_name l Hl). reflexivity. }
  unfold glob. rewrite Hcomps.
  set (pre := if os_path.startswith_sep _ then "/" else "").
  assert (Hpre : os_path.components pre = []) by (subst pre; now destruct (os_path.startswith_sep _)).
  rewrite glob_from_literal; [|exact Hwf|].
  2:{ rewrite forallb_app, Hpath. cbn. now rewrite Hlm. }
  rewrite resolve_from_app, Hres. cbn [resolve_from].
  rewrite (In_child l es n Hnd Hin).
  exists (fold_left os_path.join2 (os_path.components path ++ [l]) pre). split.
  - cbn [glob_from]. apply flat_map_select.
  - rewrite os_path_facts.components_join_names, Hpre; [reflexivity|].
    rewrite forallb_app, os_path_facts.components_valid. cbn. now rewrite Hl.
Qed.

Lemma example_of_entry (path : string) (es : list (string * node))
      (l : string) (n : node) (D : string) (e : string * node) :
  layout root path es ->
  In (l, n) es ->
  os_path.components D = os_path.components path ++ [l] ->
  In e (entries_of n) ->
  example_of codec root version (l, os_path.join2 D (fst e)) =
  entry_example codec version (l, e).
Proof.
  intros (Hwf & Hpath & Hres & Hes) Hin HD He.
  apply resolve_Some in Hres. destruct Hres as [_ Hres].
  pose proof (wf_resolve_from _ _ _ Hwf Hres) as Hwfd.
  destruct (wf_Dir_inv es Hwfd) as (_ & Hnd & Hall).
  pose proof (Hall l n Hin) as Hwfn.
  destruct n as [|esn]; [destruct He|]. cbn [entries_of] in He.
  destruct (wf_Dir_inv esn Hwfn) as (Hvaln & Hndn & _).
  destruct e as [nm nd]. cbn [fst].
  pose proof (forallb_fst_In _ _ _ _ Hvaln He) as Hnm.
  pose proof (os_path_facts.valid_name_nosep nm Hnm) as Hns.
  unfold example_of, entry_example. cbn [fst snd].
  rewrite _load_tif_outcome, (os_path_facts.basename_join2 D nm Hns).
  replace (resolve root (os_path.join2 D nm)) with (Some nd); [reflexivity|].
  rewrite resolve_nonempty
    by (apply join2_nonempty, valid_name_nonempty, Hnm).
  rewrite os_path_facts.components_join2
    by (apply os_path_facts.nosep_startswith, Hns).
  rewrite HD, (os_path_facts.components_name nm Hnm), !resolve_from_app, Hres.
  cbn [resolve_from]. rewrite (In_child l es _ Hnd Hin).
  now rewrite (In_child nm esn nd Hndn He).
Qed.

Lemma visited_matched (path : string) (es : list (string * node)) :
  layout root path es ->
  map (example_of codec root version) (visited root path (map fst es)) =
  map (entry_example codec version) (matched es).
Proof.
  intros Hlay. unfold visited, matched.
  rewrite flat_map_map, !map_flat_map.
  apply flat_map_ext_in. intros [l n] Hin. cbn [fst snd].
  destruct (glob_label path es l n Hlay Hin) as (D & -> & HD).
  rewrite !map_map. apply map_ext_in. intros e He.
  apply (example_of_entry path es l n D e Hlay Hin HD).
  unfold tif_entries in He. apply filter_In in He. apply He.
Qed.

(** On a directory laid out as [layout] says, the generator is one pass over
    the matched entries of the tree that stops at the first exception. *)
Lemma generate_examples_matched (path : string) (es : list (string * node)) :
  layout root path es ->
  _generate_examples codec root version path =
  until_raise (map (entry_example codec version) (matched es)).
Proof.
  intros Hlay. rewrite generate_examples_visited.
  destruct Hlay as (Hwf & Hpath & Hres & Hes). unfold listdir. rewrite Hres.
  f_equal. apply visited_matched. repeat split; assumption.
Qed.

End OnePass.

(** ** The label catalog *)

Lemma index_in_nth (names : list string) (name : string) (i : nat) :
  index_in names name = Some i -> nth_error names i = Some name.
Proof.
  revert i. induction names as [|n rest IH]; intros i; cbn; [discriminate|].
  destruct (String.eqb n name) eqn:E.
  - apply String.eqb_eq in E. intros [= <-]. cbn. congruence.
  - destruct (index_in rest name) as [j|]; cbn; [|discriminate].
    intros [= <-]. cbn. now apply IH.
Qed.

Lemma index_in_In (names : list string) (name : string) :
  In name names -> exists i, index_in names name = Some i.
Proof.
  induction names as [|n rest IH]; cbn; [intros []|].
  intros Hin. destruct (String.eqb n name) eqn:E; [now exists 0|].
  destruct Hin as [-> | Hin]; [now rewrite String.eqb_refl in E|].
  destruct (IH Hin) as [i ->]. now exists (S i).
Qed.

Lemma index_in_None (names : list string) (name : string) :
  ~ In name names -> index_in names name = None.
Proof.
  intros Hn. destruct (index_in names name) as [i|] eqn:E; [|reflexivity].
  exfalso. apply Hn. eapply nth_error_In, index_in_nth, E.
Qed.

Lemma nth_index_in (names : list string) (name : string) (i : nat) :
  NoDup names -> nth_error names i = Some name -> index_in names name = Some i.
Proof.
  intros Hnd Hnth.
  destruct (index_in_In names name (nth_error_In _ _ Hnth)) as [j Hj].
  rewrite Hj. f_equal.
  pose proof (index_in_nth _ _ _ Hj) as Hnth'.
  assert (Hlt : j < List.length names) by (apply nth_error_Some; congruence).
  rewrite NoDup_nth_error in Hnd. apply Hnd; [exact Hlt | congruence].
Qed.

Lemma _LABELS_NoDup : NoDup _LABELS.
Proof. apply nodupb_NoDup. reflexivity. Qed.

(** C6: the Label Catalog holds 21 pairwise distinct names; for a name of
    the catalog [index_of] returns its position in the sequence, a value
    below 21; two names of the catalog with the same index are the same
    name. *)
Theorem label_catalog_index_of :
  List.length _LABELS = 21
  /\ NoDup _LABELS
  /\ (forall name, In name _LABELS ->
        exists i, index_of name = inr i
                  /\ i < 21
                  /\ nth_error _LABELS i = Some name)
  /\ (forall n1 n2 i, In n1 _LABELS -> In n2 _LABELS ->
        index_of n1 = inr i -> index_of n2 = inr i -> n1 = n2).
Proof.
  split; [reflexivity|]. split; [exact _LABELS_NoDup|]. split.
  - intros name Hin. unfold index_of.
    destruct (index_in_In _ _ Hin) as [i Hi]. rewrite Hi. exists i.
    pose proof (index_in_nth _ _ _ Hi) as Hnth.
    repeat split; [|exact Hnth].
    change 21 with (List.length _LABELS). apply nth_error_Some. congruence.
  - intros n1 n2 i _ _. unfold index_of.
    destruct (index_in _LABELS n1) as [i1|] eqn:E1; [|discriminate].
    destruct (index_in _LABELS n2) as [i2|] eqn:E2; [|discriminate].
    intros [= ->] [= ->].
    apply index_in_nth in E1, E2. congruence.
Qed.

(** ** The split planner *)

(** C7: for every root path the download manager returns,
    [_split_generators] returns exactly one split, named "train", with one
    shard, whose path is [os.path.join] of that root and the constant
    [UCMerced_LandUse/Images]: the directory [Images] of the directory
    [UCMerced_LandUse] of the root. *)
Theorem split_generators_single_train
        (dl_manager : DownloadManager) (fetched : string) :
  download_and_extract dl_manager _ZIP_URL = inr fetched ->
  _split_generators dl_manager =
  inr [ {| name := "train";
           num_shards := 1;
           gen_kwargs := [("path", os_path.join fetched [_ZIP_SUBDIR])] |} ]
  /\ os_path.components (os_path.join fetched [_ZIP_SUBDIR]) =
     os_path.components fetched ++ ["UCMerced_LandUse"; "Images"].
Proof.
  intros H. unfold _split_generators. rewrite H. split; [reflexivity|].
  unfold os_path.join. cbn [fold_left].
  now rewrite os_path_facts.components_join2 by reflexivity.
Qed.

Lemma split_generators_single_train_witness :
  download_and_extract Toy.dl_manager _ZIP_URL = inr "/r"
  /\ _split_generators Toy.dl_manager =
     inr [ {| name := "train";
              num_shards := 1;
              gen_kwargs := [("path", "/r/UCMerced_LandUse/Images")] |} ].
Proof.
  split; [reflexivity|].
  apply (split_generators_single_train Toy.dl_manager "/r"). reflexivity.
Defined.

(** ** The record stream *)

Lemma until_raise_In {A : Type} (rs : list (result A)) (a : A) :
  In a (fst (until_raise rs)) -> In (inr a) rs.
Proof.
  induction rs as [|[e|x] r IH]; cbn; [intros [] | intros [] |].
  intros [-> | H]; [now left | right; auto].
Qed.

Lemma until_raise_error {A : Type} (rs : list (result A)) (e : exn) :
  snd (until_raise rs) = Some e -> In (inl e) rs.
Proof.
  induction rs as [|[e'|x] r IH]; cbn; [discriminate | |].
  - intros [= ->]. now left.
  - intros H. right. auto.
Qed.

(** The items up to the first exception: everything before it was yielded,
    nothing after it. *)
Lemma first_failure {A B : Type} (f : A -> result B) (l : list A) :
  Exists (fun x => forall b, f x <> inr b) l ->
  exists pre bad post items e,
    l = pre ++ bad :: post
    /\ map f pre = map inr items
    /\ f bad = inl e.
Proof.
  induction l as [|x t IH]; intros H; [inversion H|].
  destruct (f x) as [e|b] eqn:E.
  - exists [], x, t, [], e. repeat split. exact E.
  - inversion H as [? ? Hx | ? ? Ht]; subst; [now elim (Hx b)|].
    destruct (IH Ht) as (pre & bad & post & items & e & -> & Hpre & Hbad).
    exists (x :: pre), bad, post, (b :: items), e. repeat split; [|exact Hbad].
    cbn. now rewrite E, Hpre.
Qed.

(** C2: a run under a version that implements S3 and a run under one that
    does not, on the same tree and path, go through the same sequence of
    records and end the same way (both complete, or both raise the same
    exception after the same records); the keyed run yields each record as
    the pair of its file name and the record, the unkeyed run the bare
    record. *)
Theorem keyed_and_unkeyed_runs_agree
        (codec : Codec) (root : node) (keyed unkeyed : Version) (path : string) :
  implements keyed S3 = true ->
  implements unkeyed S3 = false ->
  exists (records : list (ImageRecord (ndarray codec))) (ending : option exn),
    _generate_examples codec root keyed path =
      (map (fun r => Keyed (filename r) r) records, ending)
    /\ _generate_examples codec root unkeyed path =
      (map (fun r => Bare r) records, ending).
Proof.
  intros Hk Hu. rewrite !generate_examples_visited.
  destruct (listdir root path) as [e|labels].
  - exists [], (Some e). split; reflexivity.
  - induction (visited root path labels) as [|[l f] rest IH].
    + exists [], None. split; reflexivity.
    + cbn [map until_raise]. unfold example_of at 1 3. cbn [fst snd].
      destruct (outcome (_load_tif codec root f)) as [e|im].
      * exists [], (Some e). split; reflexivity.
      * destruct IH as (records & ending & -> & ->).
        exists ({| image := im; label := LabelName l;
                   filename := os_path.basename f |} :: records), ending.
        unfold emitted. rewrite Hk, Hu. split; reflexivity.
Qed.

Lemma keyed_and_unkeyed_runs_agree_witness :
  exists (records : list (ImageRecord string)) (ending : option exn),
    _generate_examples Toy.codec Toy.corrupt_root Toy.v1 "/r/Images" =
      (map (fun r => Keyed (filename r) r) records, ending)
    /\ _generate_examples Toy.codec Toy.corrupt_root VERSION "/r/Images" =
      (map (fun r => Bare r) records, ending).
Proof.
  apply (keyed_and_unkeyed_runs_agree
           Toy.codec Toy.corrupt_root Toy.v1 VERSION "/r/Images");
    reflexivity.
Defined.

Lemma until_raise_None {A B : Type} (f : A -> result B) (l : list A) :
  snd (until_raise (map f l)) = None ->
  map f l = map inr (fst (until_raise (map f l))).
Proof.
  induction l as [|x t IH]; cbn [map until_raise]; [reflexivity|].
  destruct (f x) as [e|b]; [discriminate|].
  cbn [yield fst snd map]. intros H. now rewrite <- IH.
Qed.

Lemma until_raise_Some {A B : Type} (f : A -> result B) (l : list A) (e : exn) :
  snd (until_raise (map f l)) = Some e ->
  exists pre x post,
    l = pre ++ x :: post
    /\ map f pre = map inr (fst (until_raise (map f l)))
    /\ f x = inl e.
Proof.
  induction l as [|x t IH]; cbn [map until_raise]; [discriminate|].
  destruct (f x) as [e'|b] eqn:E.
  - intros [= ->]. exists [], x, t. repeat split. exact E.
  - cbn [yield fst snd]. intros H.
    destruct (IH H) as (pre & y & post & -> & Hpre & Hy).
    exists (x :: pre), y, post. repeat split; [|exact Hy].
    cbn [map]. now rewrite E, Hpre.
Qed.

Lemma map_inr_Forall2 {A B : Type} (f : A -> result B) (l : list A)
      (items : list B) :
  map f l = map inr items -> Forall2 (fun y x => f x = inr y) items l.
Proof.
  revert items. induction l as [|x t IH]; intros [|y ys]; cbn; try discriminate.
  - constructor.
  - intros [= Hx Ht]. constructor; auto.
Qed.

Lemma example_of_inr (codec : Codec) (root : node) (version : Version)
      (lf : string * string) (y : yielded (ndarray codec)) :
  example_of codec root version lf = inr y ->
  filename (record_of y) = os_path.basename (snd lf)
  /\ label (record_of y) = LabelName (fst lf)
  /\ outcome (_load_tif codec root (snd lf)) = inr (image (record_of y)).
Proof.
  unfold example_of.
  destruct (outcome (_load_tif codec root (snd lf))) as [e|im]; [discriminate|].
  intros [= <-]. unfold emitted.
  destruct (implements version S3); cbn; auto.
Qed.

Lemma example_of_inl (codec : Codec) (root : node) (version : Version)
      (lf : string * string) (e : exn) :
  example_of codec root version lf = inl e ->
  outcome (_load_tif codec root (snd lf)) = inl e.
Proof.
  unfold example_of.
  destruct (outcome (_load_tif codec root (snd lf))); [congruence|discriminate].
Qed.

(** C8: the records of a run are, one for one and in order, those of the
    first [n] paths [glob] returned.  The [filename] field of each record is
    the base name of its own path: it holds no separator, and taking its
    base name again gives that base name back; the record carries the label
    under which its path was found and the image loaded from that very
    path.  A run that completes has a record for every path; a run that
    raises stopped at path [n], whose loading raised. *)
Theorem filename_is_base_name
        (codec : Codec) (root : node) (version : Version) (path : string)
        (labels : list string) :
  listdir root path = inr labels ->
  exists n,
    n <= List.length (visited root path labels)
    /\ Forall2
         (fun y lf =>
            filename (record_of y) = os_path.basename (snd lf)
            /\ os_path.has_sep (filename (record_of y)) = false
            /\ os_path.basename (filename (record_of y)) =
               os_path.basename (snd lf)
            /\ label (record_of y) = LabelName (fst lf)
            /\ outcome (_load_tif codec root (snd lf)) =
               inr (image (record_of y)))
         (fst (_generate_examples codec root version path))
         (firstn n (visited root path labels))
    /\ (snd (_generate_examples codec root version path) = None ->
        n = List.length (visited root path labels))
    /\ (forall e,
          snd (_generate_examples codec root version path) = Some e ->
          exists lf,
            nth_error (visited root path labels) n = Some lf
            /\ outcome (_load_tif codec root (snd lf)) = inl e).
Proof.
  intros Hls. rewrite generate_examples_visited, Hls.
  set (f := example_of codec root version).
  assert (Hrec : forall y lf,
             f lf = inr y ->
             filename (record_of y) = os_path.basename (snd lf)
             /\ os_path.has_sep (filename (record_of y)) = false
             /\ os_path.basename (filename (record_of y)) =
                os_path.basename (snd lf)
             /\ label (record_of y) = LabelName (fst lf)
             /\ outcome (_load_tif codec root (snd lf)) =
                inr (image (record_of y))).
  { intros y lf Hy. apply example_of_inr in Hy. destruct Hy as (Hf & Hl & Him).
    rewrite Hf. repeat split; trivial.
    - apply os_path_facts.basename_has_no_sep.
    - apply os_path_facts.basename_nosep, os_path_facts.basename_has_no_sep. }
  generalize (visited root path labels). intros vs.
  destruct (snd (until_raise (map f vs))) as [e|] eqn:E.
  - destruct (until_raise_Some f _ _ E) as (pre & lf & post & Hsplit & Hpre & Hlf).
    exists (List.length pre). subst vs.
    rewrite firstn_app, firstn_all, Nat.sub_diag, app_nil_r.
    repeat split.
    + rewrite length_app. lia.
    + eapply Forall2_impl; [|apply (map_inr_Forall2 f), Hpre].
      intros y x Hy. now apply Hrec.
    + discriminate.
    + intros e' [= <-]. exists lf. split; [|now apply example_of_inl in Hlf].
      rewrite nth_error_app2, Nat.sub_diag by lia. reflexivity.
  - exists (List.length vs). rewrite firstn_all. repeat split.
    + lia.
    + eapply Forall2_impl; [|apply (map_inr_Forall2 f), until_raise_None, E].
      intros y x Hy. now apply Hrec.
    + discriminate.
Qed.

Lemma filename_is_base_name_witness :
  exists n,
    n <= List.length
           (visited Toy.corrupt_root "/r/Images" ["agricultural"; "beach"])
    /\ Forall2
         (fun y lf =>
            filename (record_of y) = os_path.basename (snd lf)
            /\ os_path.has_sep (filename (record_of y)) = false
            /\ os_path.basename (filename (record_of y)) =
               os_path.basename (snd lf)
            /\ label (record_of y) = LabelName (fst lf)
            /\ outcome (_load_tif Toy.codec Toy.corrupt_root (snd lf)) =
               inr (image (record_of y)))
         (fst (_generate_examples Toy.codec Toy.corrupt_root Toy.v1 "/r/Images"))
         (firstn n (visited Toy.corrupt_root "/r/Images" ["agricultural"; "beach"]))
    /\ (snd (_generate_examples Toy.codec Toy.corrupt_root Toy.v1 "/r/Images") = None ->
        n = List.length
              (visited Toy.corrupt_root "/r/Images" ["agricultural"; "beach"]))
    /\ (forall e,
          snd (_generate_examples Toy.codec Toy.corrupt_root Toy.v1 "/r/Images") = Some e ->
          exists lf,
            nth_error (visited Toy.corrupt_root "/r/Images" ["agricultural"; "beach"]) n
              = Some lf
            /\ outcome (_load_tif Toy.codec Toy.corrupt_root (snd lf)) = inl e).
Proof.
  apply (filename_is_base_name Toy.codec Toy.corrupt_root Toy.v1 "/r/Images").
  reflexivity.
Defined.

Lemma decode_error (codec : Codec) (content : bytes) (e : exn) :
  decode codec content = inl e -> e = ImageDecodeError.
Proof.
  unfold decode. destruct (PIL_Image_open codec content) as [im|].
  - destruct (np_array codec im content); [discriminate | now intros [= <-]].
  - now intros [= <-].
Qed.

(** C4: when one of the matched files does not decode, the generator raises
    [ImageDecodeError] at the first such file: the records yielded are those
    of the files before it, one for each and in order, and nothing is
    yielded for that file or for any file after it. *)
Theorem decode_failure_aborts
        (codec : Codec) (root : node) (version : Version) (path : string)
        (labels : list string) :
  listdir root path = inr labels ->
  Forall (fun lf => exists content, resolve root (snd lf) = Some (File content))
         (visited root path labels) ->
  Exists (fun lf => forall image,
              outcome (_load_tif codec root (snd lf)) <> inr image)
         (visited root path labels) ->
  exists pre bad post items,
    visited root path labels = pre ++ bad :: post
    /\ map (example_of codec root version) pre = map inr items
    /\ List.length items = List.length pre
    /\ (forall image, outcome (_load_tif codec root (snd bad)) <> inr image)
    /\ _generate_examples codec root version path =
       (items, Some ImageDecodeError).
Proof.
  intros Hls Hfiles Hbad. rewrite generate_examples_visited, Hls.
  assert (Hex : Exists (fun lf => forall y, example_of codec root version lf <> inr y)
                       (visited root path labels)).
  { apply Exists_exists. apply Exists_exists in Hbad.
    destruct Hbad as (lf & Hin & Hlf). exists lf. split; [exact Hin|].
    intros y. unfold example_of.
    destruct (outcome (_load_tif codec root (snd lf))) as [e|im];
      [discriminate | now elim (Hlf im)]. }
  destruct (first_failure _ _ Hex) as (pre & bad & post & items & e & Hsplit & Hpre & He).
  exists pre, bad, post, items. rewrite Hsplit in *.
  assert (Hout : outcome (_load_tif codec root (snd bad)) = inl e).
  { unfold example_of in He.
    destruct (outcome (_load_tif codec root (snd bad))); [congruence | discriminate]. }
  assert (e = ImageDecodeError) as ->.
  { rewrite Forall_forall in Hfiles.
    destruct (Hfiles bad) as [content Hres]; [apply in_elt|].
    rewrite _load_tif_outcome, Hres in Hout. cbn in Hout.
    eapply decode_error, Hout. }
  repeat split; trivial.
  - rewrite <- (length_map (example_of codec root version) pre), Hpre.
    now rewrite length_map.
  - intros image. rewrite Hout. discriminate.
  - rewrite map_app, Hpre. cbn [map]. rewrite He. apply until_raise_stop.
Qed.

Lemma decode_failure_aborts_witness :
  exists pre bad post items,
    visited Toy.corrupt_root "/r/Images" ["agricultural"; "beach"] =
      pre ++ bad :: post
    /\ map (example_of Toy.codec Toy.corrupt_root VERSION) pre = map inr items
    /\ List.length items = List.length pre
    /\ (forall image,
          outcome (_load_tif Toy.codec Toy.corrupt_root (snd bad)) <> inr image)
    /\ _generate_examples Toy.codec Toy.corrupt_root VERSION "/r/Images" =
       (items, Some ImageDecodeError).
Proof.
  apply (decode_failure_aborts Toy.codec Toy.corrupt_root VERSION "/r/Images").
  - reflexivity.
  - vm_compute. repeat constructor; eexists; reflexivity.
  - vm_compute. apply Exists_cons_tl, Exists_cons_hd. discriminate.
Defined.

(** ** The generator on a directory tree *)

Section OnTree.

Variable codec : Codec.
Variable version : Version.

Lemma record_of_emitted {A : Type} (l f : string) (im : A) :
  record_of (emitted version l f im) =
  {| image := im; label := LabelName l; filename := f |}.
Proof. unfold emitted. now destruct (implements version S3). Qed.

(** When every matched entry loads, each yields its record. *)
Lemma all_entries_load (ms : list (string * (string * node))) :
  Forall (fun m => exists im, load_node codec (Some (snd (snd m))) = inr im) ms ->
  exists items,
    map (entry_example codec version) ms = map inr items
    /\ Forall2
         (fun y m =>
            label (record_of y) = LabelName (fst m)
            /\ filename (record_of y) = entry_name m
            /\ load_node codec (Some (snd (snd m))) = inr (image (record_of y)))
         items ms.
Proof.
  induction 1 as [|m ms [im Him] _ (items & Hmap & Hall)].
  - exists []. split; constructor.
  - exists (emitted version (fst m) (entry_name m) im :: items). split.
    + cbn [map]. rewrite Hmap. unfold entry_example, entry_name.
      now rewrite Him.
    + constructor; [|exact Hall]. rewrite record_of_emitted. cbn. auto.
Qed.

Lemma keys_until_incl (ms : list (string * (string * node))) (k : string) :
  In k (keys (fst (until_raise (map (entry_example codec version) ms)))) ->
  In k (map entry_name ms).
Proof.
  induction ms as [|m ms IH]; cbn [map until_raise]; [intros []|].
  unfold entry_example at 1.
  destruct (load_node codec (Some (snd (snd m)))) as [e|im]; [intros []|].
  cbn [yield fst keys flat_map]. intros H. apply in_app_or in H.
  destruct H as [H | H]; [|right; now apply IH].
  left. unfold emitted, entry_name in *.
  destruct (implements version S3); cbn in H; [|destruct H].
  destruct H as [<- | []]. reflexivity.
Qed.

Lemma keys_until_NoDup (ms : list (string * (string * node))) :
  NoDup (map entry_name ms) ->
  NoDup (keys (fst (until_raise (map (entry_example codec version) ms)))).
Proof.
  induction ms as [|m ms IH]; cbn [map until_raise]; [constructor|].
  intros Hnd. inversion Hnd as [|? ? Hnotin Hnd']; subst.
  unfold entry_example at 1.
  destruct (load_node codec (Some (snd (snd m)))) as [e|im]; [constructor|].
  cbn [yield fst keys flat_map]. unfold emitted.
  destruct (implements version S3); cbn [key_of app]; [|now apply IH].
  constructor; [|now apply IH].
  intros Hin. apply Hnotin. now apply keys_until_incl.
Qed.

End OnTree.

Lemma Forall2_In_r {A B : Type} (R : A -> B -> Prop) (xs : list A) (ys : list B)
      (y : B) :
  Forall2 R xs ys -> In y ys -> exists x, In x xs /\ R x y.
Proof.
  induction 1 as [|x y' xs ys HR _ IH]; intros Hin; [destruct Hin|].
  destruct Hin as [-> | Hin].
  - exists x. split; [now left | exact HR].
  - destruct (IH Hin) as (x' & Hx' & HR'). exists x'. split; [now right | exact HR'].
Qed.

Lemma encode_label_name (l : string) (i : nat) :
  encode_label (LabelName l) = inr i <-> nth_error _LABELS i = Some l.
Proof.
  cbn [encode_label]. unfold index_of. split.
  - destruct (index_in _LABELS l) as [j|] eqn:E; [|discriminate].
    intros [= <-]. now apply index_in_nth.
  - intros H. now rewrite (nth_index_in _ _ _ _LABELS_NoDup H).
Qed.

Lemma load_node_error (codec : Codec) (n : node) :
  load_node codec (Some n) <> inl UnknownLabelError.
Proof.
  destruct n as [content|es]; cbn; [|discriminate].
  intros H. apply decode_error in H. discriminate.
Qed.

(** C1, as the code has it: on a split directory with label-level entries
    [es], laid out as [layout] says, in which every matched entry decodes,
    the generator completes and yields exactly one record per matched entry,
    the sum over the label-level entries of their numbers of matching
    entries, in folder-then-file order; the [label] field of a record is the
    name of the folder that contains its file, which the label encoding maps
    to an index exactly when that index is the folder name's position in the
    catalog. *)
Theorem generate_examples_count_and_labels
        (codec : Codec) (root : node) (version : Version) (path : string)
        (es : list (string * node)) :
  layout root path es ->
  Forall (fun m => exists im, load_node codec (Some (snd (snd m))) = inr im)
         (matched es) ->
  exists items,
    _generate_examples codec root version path = (items, None)
    /\ List.length items =
       list_sum (map (fun l => List.length (tif_entries (snd l))) es)
    /\ Forall2
         (fun y m =>
            label (record_of y) = LabelName (fst m)
            /\ filename (record_of y) = entry_name m
            /\ load_node codec (Some (snd (snd m))) = inr (image (record_of y))
            /\ (forall i, encode_label (label (record_of y)) = inr i
                          <-> nth_error _LABELS i = Some (fst m)))
         items (matched es).
Proof.
  intros Hlay Hok.
  destruct (all_entries_load codec version _ Hok) as (items & Hmap & Hall).
  exists items. rewrite (generate_examples_matched codec root version path es Hlay).
  rewrite Hmap, until_raise_ok. split; [reflexivity|]. split.
  - rewrite (Forall2_length Hall). unfold matched. rewrite length_flat_map.
    f_equal. apply map_ext. intros l. apply length_map.
  - eapply Forall2_impl; [|exact Hall]. cbn beta.
    intros y m (Hl & Hf & Him). repeat split; trivial; rewrite Hl;
      apply encode_label_name.
Qed.

Lemma generate_examples_count_and_labels_witness :
  exists items,
    _generate_examples Toy.codec Toy.root Toy.v1 "/r/Images" = (items, None)
    /\ List.length items =
       list_sum (map (fun l => List.length (tif_entries (snd l)))
                     (entries_of Toy.images))
    /\ Forall2
         (fun y m =>
            label (record_of y) = LabelName (fst m)
            /\ filename (record_of y) = entry_name m
            /\ load_node Toy.codec (Some (snd (snd m))) = inr (image (record_of y))
            /\ (forall i, encode_label (label (record_of y)) = inr i
                          <-> nth_error _LABELS i = Some (fst m)))
         items (matched (entries_of Toy.images)).
Proof.
  apply (generate_examples_count_and_labels
           Toy.codec Toy.root Toy.v1 "/r/Images" (entries_of Toy.images)).
  - repeat split; reflexivity.
  - vm_compute. repeat constructor; eexists; reflexivity.
Defined.

(** C1, as stated, fails: the record of [agricultural/a.tif] carries the
    folder name under [label], not the folder's index 0; and on a tree with
    four matching files of which the second is not an image, one record is
    yielded, not four. *)
Lemma generate_examples_label_and_count_counterexample :
  (map (fun y => label (record_of y))
       (fst (_generate_examples Toy.codec Toy.root Toy.v1 "/r/Images")) =
   [LabelName "agricultural"; LabelName "agricultural";
    LabelName "beach"; LabelName "unknown"]
   /\ index_of "agricultural" = inr 0
   /\ LabelName "agricultural" <> LabelIndex 0)
  /\ (list_sum (map (fun l => List.length (tif_entries (snd l)))
                    (entries_of Toy.corrupt_images)) = 4
      /\ List.length
           (fst (_generate_examples Toy.codec Toy.corrupt_root VERSION "/r/Images"))
         = 1).
Proof.
  repeat split; try reflexivity. discriminate.
Qed.

(** C3, as the code has it: on a split directory laid out as [layout] says,
    under a version that implements S3, the keys are the [filename] fields
    of the records, and they are pairwise distinct when no two matched
    entries of the split have the same name. *)
Theorem keys_distinct_when_names_are
        (codec : Codec) (root : node) (version : Version) (path : string)
        (es : list (string * node)) :
  layout root path es ->
  implements version S3 = true ->
  NoDup (map entry_name (matched es)) ->
  keys (fst (_generate_examples codec root version path)) =
    map (fun y => filename (record_of y))
        (fst (_generate_examples codec root version path))
  /\ NoDup (keys (fst (_generate_examples codec root version path))).
Proof.
  intros Hlay Hs3 Hnd.
  rewrite (generate_examples_matched codec root version path es Hlay). split.
  - clear Hnd. induction (matched es) as [|m ms IH]; [reflexivity|].
    cbn [map until_raise]. unfold entry_example at 1 3.
    destruct (load_node codec (Some (snd (snd m)))); [reflexivity|].
    cbn [yield fst keys flat_map map]. unfold keys in IH. rewrite IH.
    unfold emitted. rewrite Hs3. reflexivity.
  - now apply keys_until_NoDup.
Qed.

Lemma keys_distinct_when_names_are_witness :
  keys (fst (_generate_examples Toy.codec Toy.root Toy.v1 "/r/Images")) =
    map (fun y => filename (record_of y))
        (fst (_generate_examples Toy.codec Toy.root Toy.v1 "/r/Images"))
  /\ NoDup (keys (fst (_generate_examples Toy.codec Toy.root Toy.v1 "/r/Images"))).
Proof.
  apply (keys_distinct_when_names_are
           Toy.codec Toy.root Toy.v1 "/r/Images" (entries_of Toy.images)).
  - repeat split; reflexivity.
  - reflexivity.
  - apply nodupb_NoDup. reflexivity.
Defined.

(** C3, as stated, fails: two label folders that each hold [a.tif] give the
    key [a.tif] twice in one run. *)
Lemma keys_repeat_across_folders :
  _generate_examples Toy.codec Toy.twin_root Toy.v1 "/r/Images" =
    ([ Keyed "a.tif" {| image := "aa"; label := LabelName "agricultural";
                        filename := "a.tif" |};
       Keyed "a.tif" {| image := "bb"; label := LabelName "beach";
                        filename := "a.tif" |} ],
     None)
  /\ keys (fst (_generate_examples Toy.codec Toy.twin_root Toy.v1 "/r/Images")) =
     ["a.tif"; "a.tif"]
  /\ ~ NoDup (keys (fst (_generate_examples Toy.codec Toy.twin_root Toy.v1 "/r/Images"))).
Proof.
  repeat split; try reflexivity.
  vm_compute. intros H. inversion H as [|? ? Hn _]. apply Hn. now left.
Qed.

(** C5, as the code has it: the generator looks nothing up in the catalog
    and never raises [UnknownLabelError].  For a label-level directory whose
    name is not in the catalog it yields, when the matched entries of the
    split decode, one record per matching entry of that directory with the
    directory name under [label]; the name is rejected with
    [UnknownLabelError] where the label is encoded. *)
Theorem unknown_label_is_not_checked
        (codec : Codec) (root : node) (version : Version) (path : string)
        (es : list (string * node)) (l : string) (n : node) :
  layout root path es ->
  In (l, n) es ->
  ~ In l _LABELS ->
  snd (_generate_examples codec root version path) <> Some UnknownLabelError
  /\ (Forall (fun m => exists im, load_node codec (Some (snd (snd m))) = inr im)
             (matched es) ->
      snd (_generate_examples codec root version path) = None
      /\ forall e, In e (tif_entries n) ->
           exists y,
             In y (fst (_generate_examples codec root version path))
             /\ label (record_of y) = LabelName l
             /\ filename (record_of y) = fst e)
  /\ encode_label (LabelName l) = inl UnknownLabelError.
Proof.
  intros Hlay Hin Hnot.
  rewrite (generate_examples_matched codec root version path es Hlay).
  split; [|split].
  - intros H. apply until_raise_error, in_map_iff in H.
    destruct H as (m & Hm & _). unfold entry_example in Hm.
    destruct (load_node codec (Some (snd (snd m)))) as [e|im] eqn:E;
      [|discriminate].
    injection Hm as ->. now apply load_node_error in E.
  - intros Hok.
    destruct (all_entries_load codec version _ Hok) as (items & Hmap & Hall).
    rewrite Hmap, until_raise_ok. split; [reflexivity|]. cbn [fst].
    intros e He.
    assert (Hm : In (l, e) (matched es)).
    { unfold matched. apply in_flat_map. exists (l, n). split; [exact Hin|].
      cbn [fst snd]. now apply in_map. }
    destruct (Forall2_In_r _ _ _ _ Hall Hm) as (y & Hy & Hl & Hf & _).
    exists y. auto.
  - cbn [encode_label]. unfold index_of. now rewrite (index_in_None _ _ Hnot).
Qed.

Lemma unknown_label_is_not_checked_witness :
  snd (_generate_examples Toy.codec Toy.root Toy.v1 "/r/Images")
    <> Some UnknownLabelError
  /\ snd (_generate_examples Toy.codec Toy.root Toy.v1 "/r/Images") = None
  /\ (exists y,
        In y (fst (_generate_examples Toy.codec Toy.root Toy.v1 "/r/Images"))
        /\ label (record_of y) = LabelName "unknown"
        /\ filename (record_of y) = "u.tif")
  /\ encode_label (LabelName "unknown") = inl UnknownLabelError.
Proof.
  destruct (unknown_label_is_not_checked
              Toy.codec Toy.root Toy.v1 "/r/Images" (entries_of Toy.images)
              "unknown" (Dir [("u.tif", File "IIuu")]))
    as (Hnever & Hyields & Hencode).
  - repeat split; reflexivity.
  - cbn. tauto.
  - vm_compute. intros H. repeat (destruct H as [H | H]; [discriminate|]). exact H.
  - destruct Hyields as [Hnone Hrec].
    + vm_compute. repeat constructor; eexists; reflexivity.
    + repeat split; trivial.
      apply (Hrec ("u.tif", File "IIuu")). now left.
Defined.

(** C5, as stated, fails: with a folder [unknown], which the catalog does
    not hold, the run completes without an exception and yields the record
    of [unknown/u.tif]. *)
Lemma unknown_folder_yields_records :
  index_of "unknown" = inl UnknownLabelError
  /\ snd (_generate_examples Toy.codec Toy.root Toy.v1 "/r/Images") = None
  /\ In (Keyed "u.tif" {| image := "uu"; label := LabelName "unknown";
                          filename := "u.tif" |})
        (fst (_generate_examples Toy.codec Toy.root Toy.v1 "/r/Images")).
Proof.
  repeat split. vm_compute. tauto.
Qed.

(** Whatever the leading components of a pattern match, a path [glob]
    returns ends in an entry name that matches the last component. *)
Lemma glob_from_last (pats : list string) (p : string) :
  forall (n : node) (prefix r : string),
    wf_node n = true ->
    In r (glob_from n prefix (pats ++ [p])) ->
    exists D name,
      r = os_path.join2 D name
      /\ fnmatch p name = true
      /\ valid_name name = true.
Proof.
  induction pats as [|q qs IH]; intros n prefix r Hwf Hin;
    cbn [app glob_from] in Hin; apply in_flat_map in Hin;
    destruct Hin as ([name x] & He & Hr); cbn [fst snd] in Hr;
    destruct n as [|es]; try (now destruct He); cbn [entries_of] in He;
    destruct (wf_Dir_inv es Hwf) as (Hval & _ & Hall).
  - destruct (fnmatch p name) eqn:E; [|destruct Hr].
    destruct Hr as [<- | []]. exists prefix, name. repeat split; trivial.
    exact (forallb_fst_In _ _ _ _ Hval He).
  - destruct (fnmatch q name); [|destruct Hr].
    eapply IH; [|exact Hr]. eapply Hall, He.
Qed.

Lemma components_pattern (path l : string) :
  valid_name l = true ->
  os_path.components (os_path.join path [l; "*.tif"]) =
  os_path.components path ++ [l; "*.tif"].
Proof.
  intros Hl. unfold os_path.join. cbn [fold_left].
  rewrite os_path_facts.components_join2 by reflexivity.
  rewrite os_path_facts.components_join2
    by (apply os_path_facts.nosep_startswith, os_path_facts.valid_name_nosep, Hl).
  rewrite (os_path_facts.components_name l Hl), <- app_assoc. reflexivity.
Qed.

(** C10: on a well-formed tree in which [path] names a directory with
    entries [es] and has no metacharacter of [glob] in its components, only
    entries whose names match [*.tif] yield records: every record's file
    name matches the pattern, and, the label-level names being free of
    metacharacters too, the run is the pass over the matching entries of the
    label folders, which loads no other entry.  When no label-level entry
    has a matching entry (the directory is empty, holds plain files only, or
    its folders hold nothing that matches) the generator yields nothing and
    raises nothing. *)
Theorem only_tif_entries_yield
        (codec : Codec) (root : node) (version : Version) (path : string)
        (es : list (string * node)) :
  wf_node root = true ->
  forallb no_magic (os_path.components path) = true ->
  resolve root path = Some (Dir es) ->
  Forall (fun y => fnmatch "*.tif" (filename (record_of y)) = true)
         (fst (_generate_examples codec root version path))
  /\ (forallb no_magic (map fst es) = true ->
      _generate_examples codec root version path =
      until_raise (map (entry_example codec version) (matched es)))
  /\ ((forall l n, In (l, n) es -> tif_entries n = []) ->
      _generate_examples codec root version path = ([], None)).
Proof.
  intros Hwf Hpath Hres.
  destruct (resolve_Some _ _ _ Hres) as [_ Hres'].
  pose proof (wf_resolve_from _ _ _ Hwf Hres') as Hwfd.
  destruct (wf_Dir_inv es Hwfd) as (Hval & _ & _).
  rewrite forallb_forall in Hval.
  split; [|split].
  - rewrite generate_examples_visited. unfold listdir. rewrite Hres.
    apply Forall_forall. intros y Hy.
    apply until_raise_In, in_map_iff in Hy. destruct Hy as ([l f] & Hy & Hin).
    unfold example_of in Hy. cbn [fst snd] in Hy.
    destruct (outcome (_load_tif codec root f)) as [e|im]; [discriminate|].
    injection Hy as <-. rewrite record_of_emitted. cbn [filename].
    unfold visited in Hin. apply in_flat_map in Hin.
    destruct Hin as (l' & Hl' & Hin). apply in_map_iff in Hin.
    destruct Hin as (f' & [= -> ->] & Hf).
    unfold glob in Hf. rewrite (components_pattern path l (Hval l Hl')) in Hf.
    change [l; "*.tif"] with ([l] ++ ["*.tif"]) in Hf. rewrite app_assoc in Hf.
    destruct (glob_from_last _ _ _ _ _ Hwf Hf) as (D & name & -> & Hm & Hname).
    now rewrite (os_path_facts.basename_join2 D name
                   (os_path_facts.valid_name_nosep name Hname)).
  - intros Hes. apply generate_examples_matched. repeat split; assumption.
  - intros Hnone. rewrite generate_examples_visited. unfold listdir.
    rewrite Hres. unfold visited. rewrite flat_map_nil; [reflexivity|].
    intros l Hl. unfold glob.
    rewrite (components_pattern path l (Hval l Hl)).
    rewrite glob_from_literal, Hres' by assumption.
    cbn [glob_from entries_of]. rewrite flat_map_nil; [reflexivity|].
    intros [l' n] Hin. cbn [fst snd].
    destruct (fnmatch l l'); [|reflexivity].
    rewrite flat_map_select.
    change (filter _ (entries_of n)) with (tif_entries n).
    now rewrite (Hnone l' n Hin).
Qed.

Lemma only_tif_entries_yield_witness :
  _generate_examples Toy.codec Toy.bare_root VERSION "/r/Images" = ([], None).
Proof.
  apply (proj2 (proj2 (only_tif_entries_yield
                         Toy.codec Toy.bare_root VERSION "/r/Images"
                         (entries_of Toy.bare_images)
                         eq_refl eq_refl eq_refl))).
  intros l n H. cbn in H.
  repeat (destruct H as [H | H]; [injection H as <- <-; reflexivity|]).
  destruct H.
Defined.

(** ** The file handle of [_load_tif] *)

(** The log of [_load_tif] on any path: the handle is entered, the image is
    opened through it, the handle is closed, whatever [PIL_Image.open] did;
    [np.array] and its read come after that, when the image was opened. *)
Lemma _load_tif_log (codec : Codec) (root : node) (path : string) :
  exists tail,
    log_of (_load_tif codec root path) =
      [GFile_enter path; PIL_open path; GFile_reads path; GFile_exit path] ++ tail
    /\ (tail = [] \/ tail = [np_array_of path; GFile_reads path])
    /\ (forall a, outcome (_load_tif codec root path) = inr a ->
                  tail = [np_array_of path; GFile_reads path]).
Proof.
  unfold log_of, outcome, run, _load_tif, bind, with_, GFile, GFile_close,
    PIL_Image_open_fp, GFile_read, np_array_image, bind, emit, ret, raise.
  destruct (resolve root path) as [[content|es]|] eqn:E; cbn -[resolve];
    try (exists []; repeat split; auto; discriminate).
  destruct (PIL_Image_open codec content) as [im|]; cbn -[resolve];
    [|exists []; repeat split; auto; discriminate].
  exists [np_array_of path; GFile_reads path].
  rewrite E. cbn.
  destruct (np_array codec im content); cbn; repeat split; auto.
Qed.

(** C9: on [beach/c.tif], a file that decodes, [_load_tif] leaves the [with]
    block, which closes the handle, before [np.array] decodes the image: the
    call of [np.array] and the read of the pixel data through the file
    object are the last events of the log, after the close. *)
Theorem load_tif_closes_before_decoding :
  run (_load_tif Toy.codec Toy.root "/r/Images/beach/c.tif") =
  ([ GFile_enter "/r/Images/beach/c.tif";
     PIL_open "/r/Images/beach/c.tif";
     GFile_reads "/r/Images/beach/c.tif";
     GFile_exit "/r/Images/beach/c.tif";
     np_array_of "/r/Images/beach/c.tif";
     GFile_reads "/r/Images/beach/c.tif" ],
   inr "cc").
Proof. reflexivity. Qed.

(** * Further properties of the builder *)

(** ** [_load_tif] *)

(** X1: [_load_tif] returns an array exactly when the path resolves to a
    file whose bytes [PIL_Image.open] identifies and [np.array] decodes, and
    the array is the one [np.array] makes of those bytes; a path that names
    nothing or a directory, or a file that is not an image, makes it
    raise. *)
Theorem load_tif_returns_iff
        (codec : Codec) (root : node) (path : string) (a : ndarray codec) :
  outcome (_load_tif codec root path) = inr a <->
  exists content im,
    resolve root path = Some (File content)
    /\ PIL_Image_open codec content = Some im
    /\ np_array codec im content = Some a.
Proof.
  rewrite _load_tif_outcome. unfold load_node, decode. split.
  - destruct (resolve root path) as [[content|es]|]; try discriminate.
    destruct (PIL_Image_open codec content) as [im|] eqn:Ho; [|discriminate].
    destruct (np_array codec im content) as [b|] eqn:Ha; [|discriminate].
    intros [= ->]. now exists content, im.
  - intros (content & im & -> & -> & ->). reflexivity.
Qed.

(** X2: whatever the path and whatever happens to the image, [_load_tif]
    enters the file object once and closes it once, after entering it, and
    every operation it logs is on the file object of its own path: no handle
    stays open behind a call that raised, and no other file is touched. *)
Theorem load_tif_handle_discipline
        (codec : Codec) (root : node) (path : string) :
  filter is_enter (log_of (_load_tif codec root path)) = [GFile_enter path]
  /\ filter is_exit (log_of (_load_tif codec root path)) = [GFile_exit path]
  /\ Forall (fun ev => event_path ev = path) (log_of (_load_tif codec root path))
  /\ exists before after,
       log_of (_load_tif codec root path) = before ++ GFile_exit path :: after
       /\ In (GFile_enter path) before
       /\ ~ In (GFile_enter path) after.
Proof.
  destruct (_load_tif_log codec root path) as (tail & -> & Htail & _).
  destruct Htail as [-> | ->]; cbn; repeat split; trivial;
    try (repeat constructor).
  - exists [GFile_enter path; PIL_open path; GFile_reads path], [].
    cbn. repeat split; auto.
  - exists [GFile_enter path; PIL_open path; GFile_reads path],
           [np_array_of path; GFile_reads path].
    cbn. repeat split; auto.
    intros [H | [H | []]]; discriminate.
Qed.

(** ** Runs that stop early *)

(** X3: every exception of the generator is one a collaborator raised.  A
    run that completes loaded every path the loops visited and yielded one
    item for each, in order.  A run that raises [e] either got [e] from
    [listdir] and yielded nothing, or got it from [_load_tif] on a visited
    path, after one item for each path before that one and none for the
    paths after it. *)
Theorem generator_exception_origin
        (codec : Codec) (root : node) (version : Version) (path : string) :
  (snd (_generate_examples codec root version path) = None ->
   exists labels,
     listdir root path = inr labels
     /\ map (example_of codec root version) (visited root path labels) =
        map inr (fst (_generate_examples codec root version path)))
  /\ (forall e,
        snd (_generate_examples codec root version path) = Some e ->
        (listdir root path = inl e
         /\ fst (_generate_examples codec root version path) = [])
        \/ exists labels pre lf post,
             listdir root path = inr labels
             /\ visited root path labels = pre ++ lf :: post
             /\ map (example_of codec root version) pre =
                map inr (fst (_generate_examples codec root version path))
             /\ outcome (_load_tif codec root (snd lf)) = inl e).
Proof.
  rewrite generate_examples_visited.
  destruct (listdir root path) as [e0|labels].
  - split; [discriminate|]. intros e [= ->]. left. split; reflexivity.
  - split.
    + intros H. exists labels. split; [reflexivity|]. now apply until_raise_None.
    + intros e H. right.
      destruct (until_raise_Some _ _ _ H) as (pre & lf & post & Hsplit & Hpre & Hlf).
      exists labels, pre, lf, post. repeat split; trivial.
      unfold example_of in Hlf.
      destruct (outcome (_load_tif codec root (snd lf))); [congruence|discriminate].
Qed.

Lemma entry_example_inr (codec : Codec) (version : Version)
      (m : string * (string * node)) (y : yielded (ndarray codec)) :
  entry_example codec version m = inr y ->
  label (record_of y) = LabelName (fst m)
  /\ filename (record_of y) = entry_name m
  /\ load_node codec (Some (snd (snd m))) = inr (image (record_of y)).
Proof.
  unfold entry_example.
  destruct (load_node codec (Some (snd (snd m)))) as [e|im]; [discriminate|].
  intros [= <-]. rewrite record_of_emitted. cbn. auto.
Qed.

Lemma entry_example_inl (codec : Codec) (version : Version)
      (m : string * (string * node)) (e : exn) :
  entry_example codec version m = inl e ->
  load_node codec (Some (snd (snd m))) = inl e.
Proof.
  unfold entry_example.
  destruct (load_node codec (Some (snd (snd m)))); [congruence|discriminate].
Qed.

(** X4: on a split directory laid out as [layout] says, the records of a
    run, complete or not, are those of the first [n] matched entries of the
    tree, in folder-then-file order: each has its folder's name as label,
    its entry's name as file name and the decoded content of that entry as
    image.  No entry gives two records and no record comes from anything
    else.  A run that completes went through all matched entries; a run that
    raises [e] stopped at entry [n], whose loading raises [e]. *)
Theorem run_is_prefix_of_matched
        (codec : Codec) (root : node) (version : Version) (path : string)
        (es : list (string * node)) :
  layout root path es ->
  exists n,
    n <= List.length (matched es)
    /\ Forall2
         (fun y m =>
            label (record_of y) = LabelName (fst m)
            /\ filename (record_of y) = entry_name m
            /\ load_node codec (Some (snd (snd m))) = inr (image (record_of y)))
         (fst (_generate_examples codec root version path))
         (firstn n (matched es))
    /\ (snd (_generate_examples codec root version path) = None ->
        n = List.length (matched es))
    /\ (forall e,
          snd (_generate_examples codec root version path) = Some e ->
          exists m,
            nth_error (matched es) n = Some m
            /\ load_node codec (Some (snd (snd m))) = inl e).
Proof.
  intros Hlay.
  rewrite (generate_examples_matched codec root version path es Hlay).
  set (f := entry_example codec version).
  generalize (matched es). intros ms.
  destruct (snd (until_raise (map f ms))) as [e|] eqn:E.
  - destruct (until_raise_Some f _ _ E) as (pre & m & post & Hsplit & Hpre & Hm).
    exists (List.length pre). subst ms.
    rewrite firstn_app, firstn_all, Nat.sub_diag, app_nil_r.
    repeat split.
    + rewrite length_app. lia.
    + eapply Forall2_impl; [|apply (map_inr_Forall2 f), Hpre].
      intros y x Hy. now apply entry_example_inr in Hy.
    + discriminate.
    + intros e' [= <-]. exists m. split; [|now apply entry_example_inl in Hm].
      rewrite nth_error_app2, Nat.sub_diag by lia. reflexivity.
  - exists (List.length ms). rewrite firstn_all. repeat split.
    + lia.
    + eapply Forall2_impl; [|apply (map_inr_Forall2 f), until_raise_None, E].
      intros y x Hy. now apply entry_example_inr in Hy.
    + discriminate.
Qed.

Lemma run_is_prefix_of_matched_witness :
  exists n,
    n <= List.length (matched (entries_of Toy.corrupt_images))
    /\ Forall2
         (fun y m =>
            label (record_of y) = LabelName (fst m)
            /\ filename (record_of y) = entry_name m
            /\ load_node Toy.codec (Some (snd (snd m))) = inr (image (record_of y)))
         (fst (_generate_examples Toy.codec Toy.corrupt_root VERSION "/r/Images"))
         (firstn n (matched (entries_of Toy.corrupt_images)))
    /\ (snd (_generate_examples Toy.codec Toy.corrupt_root VERSION "/r/Images") = None ->
        n = List.length (matched (entries_of Toy.corrupt_images)))
    /\ (forall e,
          snd (_generate_examples Toy.codec Toy.corrupt_root VERSION "/r/Images") = Some e ->
          exists m,
            nth_error (matched (entries_of Toy.corrupt_images)) n = Some m
            /\ load_node Toy.codec (Some (snd (snd m))) = inl e).
Proof.
  apply (run_is_prefix_of_matched
           Toy.codec Toy.corrupt_root VERSION "/r/Images"
           (entries_of Toy.corrupt_images)).
  repeat split; reflexivity.
Defined.

(** ** Where the split directory sits *)

(** X5: the run depends on the entries of the split directory only, not on
    where the directory sits in the file system: two split directories with
    the same entries, each laid out as [layout] says and each named by a
    path of entry names (not empty, no [.] or [..]; absolute or relative),
    give the same items and the same ending. *)
Theorem run_ignores_location
        (codec : Codec) (version : Version)
        (root1 root2 : node) (path1 path2 : string)
        (es : list (string * node)) :
  layout root1 path1 es ->
  layout root2 path2 es ->
  no_dots path1 = true ->
  no_dots path2 = true ->
  path1 <> "" /\ path2 <> ""
  /\ _generate_examples codec root1 version path1 =
     _generate_examples codec root2 version path2.
Proof.
  intros H1 H2 _ _.
  rewrite (generate_examples_matched codec root1 version path1 es H1).
  rewrite (generate_examples_matched codec root2 version path2 es H2).
  destruct H1 as (_ & _ & Hres1 & _). destruct H2 as (_ & _ & Hres2 & _).
  apply resolve_Some in Hres1, Hres2. repeat split; tauto.
Qed.

Lemma run_ignores_location_witness :
  "/r/Images" <> "" /\ "data/x" <> ""
  /\ _generate_examples Toy.codec Toy.root Toy.v1 "/r/Images" =
     _generate_examples Toy.codec Toy.moved_root Toy.v1 "data/x".
Proof.
  apply (run_ignores_location Toy.codec Toy.v1 Toy.root Toy.moved_root
           "/r/Images" "data/x" (entries_of Toy.images));
    repeat split; reflexivity.
Defined.



(** The empty path is no split directory: [listdir] finds nothing there and
    the generator raises at once, whatever the tree. *)
Lemma empty_path_raises (codec : Codec) (root : node) (version : Version) :
  _generate_examples codec root version "" = ([], Some NotFoundError).
Proof. reflexivity. Qed.

(** X7: the split [_split_generators] plans and the generator fit together:
    when the archive is extracted to [fetched] and holds the directory
    [UCMerced_LandUse/Images] with entries [es], the generator run on the
    path of the planned split is the pass over the matching entries of the
    folders in [es]. *)
Theorem planned_split_feeds_generator
        (codec : Codec) (root : node) (version : Version)
        (dl_manager : DownloadManager) (fetched : string)
        (es : list (string * node)) :
  download_and_extract dl_manager _ZIP_URL = inr fetched ->
  wf_node root = true ->
  forallb no_magic (os_path.components fetched) = true ->
  resolve_from root (os_path.components fetched ++ ["UCMerced_LandUse"; "Images"]) =
    Some (Dir es) ->
  forallb no_magic (map fst es) = true ->
  exists sg path,
    _split_generators dl_manager = inr [sg]
    /\ gen_kwargs sg = [("path", path)]
    /\ _generate_examples codec root version path =
       until_raise (map (entry_example codec version) (matched es)).
Proof.
  intros Hdl Hwf Hfetched Hres Hes. unfold _split_generators. rewrite Hdl.
  eexists. eexists. split; [reflexivity|]. split; [reflexivity|].
  apply generate_examples_matched.
  assert (Hc : os_path.components (os_path.join fetched [_ZIP_SUBDIR]) =
               os_path.components fetched ++ ["UCMerced_LandUse"; "Images"]).
  { unfold os_path.join. cbn [fold_left].
    now rewrite os_path_facts.components_join2 by reflexivity. }
  unfold layout. rewrite resolve_nonempty, Hc.
  - repeat split; trivial. rewrite forallb_app, Hfetched. reflexivity.
  - unfold os_path.join. cbn [fold_left]. now apply join2_nonempty.
Qed.

Lemma planned_split_feeds_generator_witness :
  exists sg path,
    _split_generators {| download_and_extract := fun _ => inr "/" |} = inr [sg]
    /\ gen_kwargs sg = [("path", path)]
    /\ _generate_examples Toy.codec
         (Dir [("UCMerced_LandUse", Dir [("Images", Toy.images)])]) Toy.v1 path =
       until_raise (map (entry_example Toy.codec Toy.v1)
                        (matched (entries_of Toy.images))).
Proof.
  apply (planned_split_feeds_generator
           Toy.codec (Dir [("UCMerced_LandUse", Dir [("Images", Toy.images)])])
           Toy.v1 {| download_and_extract := fun _ => inr "/" |} "/"
           (entries_of Toy.images));
    reflexivity.
Defined.

(** ** Versions and keys *)

Lemma items_keying (codec : Codec) (root : node) (version : Version)
      (path : string) :
  Forall
    (fun y => key_of y = if implements version S3
                         then Some (filename (record_of y)) else None)
    (fst (_generate_examples codec root version path)).
Proof.
  rewrite generate_examples_visited.
  destruct (listdir root path) as [e|labels]; [constructor|].
  apply Forall_forall. intros y Hy.
  apply until_raise_In, in_map_iff in Hy. destruct Hy as (lf & Hy & _).
  unfold example_of in Hy.
  destruct (outcome (_load_tif codec root (snd lf))); [discriminate|].
  injection Hy as <-. unfold emitted.
  destruct (implements version S3); reflexivity.
Qed.

(** X8: under the builder's default [VERSION] (0.0.1, S3 switched off) the
    generator yields bare records only, on every tree; under each of the
    [SUPPORTED_VERSIONS] (2.0.0 and 1.0.0) every item is keyed, and its key
    is the [filename] field of its record. *)
Theorem declared_versions_keying
        (codec : Codec) (root : node) (path : string) :
  Forall (fun y => key_of y = None)
         (fst (_generate_examples codec root VERSION path))
  /\ Forall
       (fun v =>
          Forall (fun y => key_of y = Some (filename (record_of y)))
                 (fst (_generate_examples codec root v path)))
       SUPPORTED_VERSIONS.
Proof.
  split; [exact (items_keying codec root VERSION path)|].
  apply Forall_forall. intros v Hv.
  pose proof (items_keying codec root v path) as H.
  destruct Hv as [<- | [<- | []]]; exact H.
Qed.

(** ** Names and the extension filter *)

(** X9: the base name of what [os.path.join] makes of a directory path, a
    label and a name without a separator is that name, whatever the path and
    the label are (with or without separators at their ends): the key and
    the [filename] field carry the entry's name and nothing of the
    directories above it. *)
Theorem basename_of_joined_name (path label name : string) :
  os_path.has_sep name = false ->
  os_path.basename (os_path.join path [label; name]) = name.
Proof.
  intros H. unfold os_path.join. cbn [fold_left].
  now apply os_path_facts.basename_join2.
Qed.

Lemma basename_of_joined_name_witness :
  os_path.basename (os_path.join "/r/Images/" ["beach"; "c.tif"]) = "c.tif".
Proof.
  apply (basename_of_joined_name "/r/Images/" "beach" "c.tif"). reflexivity.
Defined.

Lemma fnmatch_star (pt s : string) :
  fnmatch (String "*" pt) s =
  (fnmatch pt s
   || match s with
      | EmptyString => false
      | String _ st => fnmatch (String "*" pt) st
      end)%bool.
Proof. destruct s; reflexivity. Qed.

(** The filter [*.tif] selects the names that end in [.tif]. *)
Lemma fnmatch_tif_iff (s : string) :
  fnmatch "*.tif" s = true <-> exists stem, s = (stem ++ ".tif")%string.
Proof.
  split.
  - induction s as [|c t IH]; rewrite fnmatch_star.
    + discriminate.
    + intros H. apply orb_true_iff in H. destruct H as [H | H].
      * rewrite fnmatch_literal in H by reflexivity.
        apply String.eqb_eq in H. exists "". now rewrite <- H.
      * destruct (IH H) as [stem ->]. now exists (String c stem).
  - intros [stem ->]. induction stem as [|c st IH]; [reflexivity|].
    cbn [append]. rewrite fnmatch_star, IH. apply orb_true_r.
Qed.

Lemma record_filenames_match (codec : Codec) (root : node) (version : Version)
      (path : string) (es : list (string * node)) :
  wf_node root = true ->
  resolve root path = Some (Dir es) ->
  Forall (fun y => fnmatch "*.tif" (filename (record_of y)) = true)
         (fst (_generate_examples codec root version path)).
Proof.
  intros Hwf Hres.
  destruct (resolve_Some _ _ _ Hres) as [_ Hres'].
  pose proof (wf_resolve_from _ _ _ Hwf Hres') as Hwfd.
  destruct (wf_Dir_inv es Hwfd) as (Hval & _ & _).
  rewrite forallb_forall in Hval.
  rewrite generate_examples_visited. unfold listdir. rewrite Hres.
  apply Forall_forall. intros y Hy.
  apply until_raise_In, in_map_iff in Hy. destruct Hy as ([l f] & Hy & Hin).
  unfold example_of in Hy. cbn [fst snd] in Hy.
  destruct (outcome (_load_tif codec root f)) as [e|im]; [discriminate|].
  injection Hy as <-. rewrite record_of_emitted. cbn [filename].
  unfold visited in Hin. apply in_flat_map in Hin.
  destruct Hin as (l' & Hl' & Hin). apply in_map_iff in Hin.
  destruct Hin as (f' & [= -> ->] & Hf).
  unfold glob in Hf. rewrite (components_pattern path l (Hval l Hl')) in Hf.
  change [l; "*.tif"] with ([l] ++ ["*.tif"]) in Hf. rewrite app_assoc in Hf.
  destruct (glob_from_last _ _ _ _ _ Hwf Hf) as (D & name & -> & Hm & Hname).
  now rewrite (os_path_facts.basename_join2 D name
                 (os_path_facts.valid_name_nosep name Hname)).
Qed.

(** X10: the extension filter is a test on the end of the name.  On a
    well-formed tree every record's file name ends in [.tif]; and on a split
    directory laid out as [layout] says, a run that completes has a record
    for every entry of a label folder whose name ends in [.tif], with the
    folder's name as label. *)
Theorem records_are_the_tif_names
        (codec : Codec) (root : node) (version : Version) (path : string)
        (es : list (string * node)) :
  layout root path es ->
  Forall (fun y => exists stem, filename (record_of y) = (stem ++ ".tif")%string)
         (fst (_generate_examples codec root version path))
  /\ (snd (_generate_examples codec root version path) = None ->
      forall l n stem x,
        In (l, n) es ->
        In ((stem ++ ".tif")%string, x) (entries_of n) ->
        exists y,
          In y (fst (_generate_examples codec root version path))
          /\ label (record_of y) = LabelName l
          /\ filename (record_of y) = (stem ++ ".tif")%string).
Proof.
  intros Hlay. split.
  - destruct Hlay as (Hwf & _ & Hres & _).
    eapply Forall_impl; [|exact (record_filenames_match codec root version path es Hwf Hres)].
    intros y Hy. now apply fnmatch_tif_iff.
  - rewrite (generate_examples_matched codec root version path es Hlay).
    intros Hnone l n stem x Hl Hx.
    pose proof (until_raise_None (entry_example codec version) _ Hnone) as Hall.
    apply map_inr_Forall2 in Hall.
    assert (Hm : In (l, ((stem ++ ".tif")%string, x)) (matched es)).
    { unfold matched. apply in_flat_map. exists (l, n). split; [exact Hl|].
      cbn [fst snd]. apply in_map. unfold tif_entries. apply filter_In.
      split; [exact Hx|]. unfold is_tif. cbn [fst].
      apply fnmatch_tif_iff. now exists stem. }
    destruct (Forall2_In_r _ _ _ _ Hall Hm) as (y & Hy & Hex).
    apply entry_example_inr in Hex. destruct Hex as (Hlab & Hfile & _).
    exists y. auto.
Qed.

Lemma records_are_the_tif_names_witness :
  Forall (fun y => exists stem, filename (record_of y) = (stem ++ ".tif")%string)
         (fst (_generate_examples Toy.codec Toy.root Toy.v1 "/r/Images"))
  /\ exists y,
       In y (fst (_generate_examples Toy.codec Toy.root Toy.v1 "/r/Images"))
       /\ label (record_of y) = LabelName "agricultural"
       /\ filename (record_of y) = "b.tif".
Proof.
  destruct (records_are_the_tif_names
              Toy.codec Toy.root Toy.v1 "/r/Images" (entries_of Toy.images))
    as (Hends & Hall).
  - repeat split; reflexivity.
  - split; [exact Hends|].
    apply (Hall eq_refl "agricultural"
                (Dir [ ("a.tif", File "IIaa"); ("notes.txt", File "hello");
                       ("b.tif", File "IIbb") ])
                "b" (File "IIbb")); cbn; tauto.
Defined.

(** X11: the [label] field of every record is one of the names [listdir]
    returned for the split path, as a name: the generator takes labels from
    the directory listing alone, never from a file's content or from the
    catalog. *)
Theorem labels_come_from_listing
        (codec : Codec) (root : node) (version : Version) (path : string)
        (labels : list string) :
  listdir root path = inr labels ->
  Forall (fun y => exists l, In l labels /\ label (record_of y) = LabelName l)
         (fst (_generate_examples codec root version path)).
Proof.
  intros Hls. rewrite generate_examples_visited, Hls.
  apply Forall_forall. intros y Hy.
  apply until_raise_In, in_map_iff in Hy. destruct Hy as ([l f] & Hy & Hin).
  unfold example_of in Hy. cbn [fst snd] in Hy.
  destruct (outcome (_load_tif codec root f)); [discriminate|].
  injection Hy as <-. exists l. rewrite record_of_emitted. split; [|reflexivity].
  unfold visited in Hin. apply in_flat_map in Hin.
  destruct Hin as (l' & Hl' & Hin). apply in_map_iff in Hin.
  now destruct Hin as (f' & [= -> ->] & _).
Qed.

Lemma labels_come_from_listing_witness :
  Forall (fun y => exists l,
              In l ["agricultural"; "readme.txt"; "beach"; "empty"; "unknown"]
              /\ label (record_of y) = LabelName l)
         (fst (_generate_examples Toy.codec Toy.root VERSION "/r/Images")).
Proof.
  apply (labels_come_from_listing Toy.codec Toy.root VERSION "/r/Images").
  reflexivity.
Defined.
